(** * Role reconciliation engine of the Discord role sync bot (roles.ts)

    A shallow embedding of [roles.ts]: the in-memory [rolesCache], the
    change comparison of [syncUserRoles], the write-through sink adapter
    ([upsertUserRoles], [removeUserRoles]), the cursor pagination and the
    per-guild sync and prune loop of [initialSync], and the cache seeding of
    [fetchAllSupabaseRoles].

    Modelling choices.
    - Strings are [string]; the cache is a JS [Map] keyed by the composite
      key "guild:user": its entries in insertion order ([JsMap]), which is
      the order in which [keys()] visits them.
    - The Discord REST client and the Supabase client are external.  They are
      an interface ([Collaborators]) over an abstract environment state, so
      every answer may depend on the whole history of calls.
    - An [async] function is a state transformer with three outcomes:
      fulfilled, rejected, or out of fuel (only the [while] loop of the
      pagination consumes fuel); each carries the state it was reached in.
    - Every call to a collaborator, every cache mutation and every console
      line is recorded in a trace, so that statements about the order and the
      number of side effects can be made. *)

From Stdlib Require Import Ascii String.
From stdpp Require Import base strings list gmap sets.

Local Open Scope string_scope.
Local Open Scope list_scope.
Local Open Scope nat_scope.

(** ** Strings: the JS primitives used on cache keys *)

Definition colon : ascii := ":"%char.

(** Truthiness of a JS string: only the empty string is falsy. *)
Definition truthy (s : string) : bool :=
  match s with
  | EmptyString => false
  | String _ _ => true
  end.

(** Truthiness of [string | undefined]. *)
Definition truthy_opt (o : option string) : bool :=
  match o with
  | Some s => truthy s
  | None => false
  end.

(** [s.split(sep)] for a one-character separator: never the empty list. *)
Fixpoint split (sep : ascii) (s : string) : list string :=
  match s with
  | EmptyString => [EmptyString]
  | String c s' =>
      if Ascii.eqb c sep then EmptyString :: split sep s'
      else match split sep s' with
           | f :: fs => String c f :: fs
           | [] => [String c EmptyString]
           end
  end.

(** [key.startsWith(p)]. *)
Definition startsWith (key p : string) : bool := String.prefix p key.

(** No [":"] occurs in the string.  Discord snowflakes are decimal numerals,
    so every guild, user and role identifier satisfies this. *)
Fixpoint colon_free (s : string) : bool :=
  match s with
  | EmptyString => true
  | String c s' => negb (Ascii.eqb c colon) && colon_free s'
  end.

(** ** Configuration and types *)

Definition PAGE_LIMIT : nat := 1000.

Record UserRoleRow := {
  guild_snowflake : string;
  discord_id : string;
  discord_role : option (list string)      (* TEXT[] NULL *)
}.

Record APIUser := { id : string }.

Record APIGuildMember := {
  user : option APIUser;                   (* user?: APIUser *)
  roles : list string
}.

(** [member.user?.id] *)
Definition user_id (member : APIGuildMember) : option string :=
  id <$> user member.

(** Composite key for the in-memory cache: "guild_id:discord_id". *)
Definition cacheKey (guildId discordId : string) : string :=
  guildId +:+ ":" +:+ discordId.

(** The query of a member page request. *)
Record Query := { limit : nat; after : option string }.

(** ** Collaborators *)

(** An error value of a collaborator (its message). *)
Definition Error := string.

(** One upsert that [syncUserRoles] decided to issue:
    guild, member, observed roles. *)
Definition Upsert : Type := string * string * list string.

(** The external services.  [E] is their joint state.
    - [rest_get]: [rest.get(Routes.guildMembers(guildId), { query })], which
      rejects on failure;
    - [sink_select]: the [select ... in('guild_snowflake', guildIds)] query;
    - [sink_upsert], [sink_delete]: the Supabase mutations, which answer with
      [{ error }];
    - [settle_order]: the order in which the upserts that are in flight at
      the same time are answered; any rearrangement is possible.
    A call is recorded, and the state of the services advanced, when its
    answer arrives; the code that follows the [await] then runs without
    interruption up to the next [await]. *)
Class Collaborators (E : Type) := {
  rest_get : E → string → Query → E * (Error + list APIGuildMember);
  sink_select : E → list string → E * (Error + list UserRoleRow);
  sink_upsert : E → string → string → list string → E * option Error;
  sink_delete : E → string → string → E * option Error;
  settle_order : list Upsert → list Upsert;
  settle_order_perm : ∀ l, settle_order l ≡ₚ l
}.

(** ** Trace of side effects *)

Inductive Console :=
| SyncingGuild (guildId : string)
| FoundMembers (n : nat) (guildId : string)
| FailedToSync (n : nat) (guildId : string)
| FailedUpsert (discordId guildId : string) (message : Error)
| FailedRemove (discordId guildId : string) (message : Error)
| Removed (discordId guildId : string).

Inductive Event :=
| RestGet (guildId : string) (query : Query)
| SinkSelect (guildIds : list string)
| SinkUpsert (guildId discordId : string) (roles : list string)
    (error : option Error)
| SinkDelete (guildId discordId : string) (error : option Error)
| CacheSet (key : string) (roles : list string)
| CacheDelete (key : string)
| ConsoleLog (line : Console)
| ConsoleError (line : Console).

(** ** The JS [Map] of the cache

    A [Map<string, string[]>] is the list of its entries in insertion order.
    [get] reads the entry of the key.  [set] on a key that is present
    replaces the value where the entry is; on a key that is absent it
    appends the entry.  [delete] removes the entry.  [keys()] visits the
    entries from the first to the last.  A [Map] holds a key once. *)
Record JsMap := { entries : list (string * list string) }.

Fixpoint entries_get (key : string) (l : list (string * list string))
  : option (list string) :=
  match l with
  | [] => None
  | (k, v) :: l' => if String.eqb k key then Some v else entries_get key l'
  end.

Fixpoint entries_set (key : string) (value : list string)
    (l : list (string * list string)) : list (string * list string) :=
  match l with
  | [] => [(key, value)]
  | (k, v) :: l' =>
      if String.eqb k key then (k, value) :: l'
      else (k, v) :: entries_set key value l'
  end.

Definition entries_delete (key : string) (l : list (string * list string))
  : list (string * list string) :=
  List.filter (λ entry, negb (String.eqb (fst entry) key)) l.

(** [new Map()], [m.get(key)], [m.set(key, value)], [m.delete(key)] are
    written [∅], [m !! key], [<[key := value]> m] and [delete key m]. *)
#[export] Instance JsMap_empty : Empty JsMap := {| entries := [] |}.

#[export] Instance JsMap_get : Lookup string (list string) JsMap :=
  λ key m, entries_get key (entries m).

#[export] Instance JsMap_set : Insert string (list string) JsMap :=
  λ key value m, {| entries := entries_set key value (entries m) |}.

#[export] Instance JsMap_delete : Delete string JsMap :=
  λ key m, {| entries := entries_delete key (entries m) |}.

(** [[...m.keys()]] *)
Definition keys (m : JsMap) : list string := map fst (entries m).

(** ** Program state and the monad of [async] functions *)

Section Engine.
Context {E : Type} `{Collaborators E}.

Record World := {
  rolesCache : JsMap;
  env : E;
  trace : list Event
}.

Inductive Outcome (A : Type) :=
| Fulfilled (a : A) (w : World)
| Rejected (reason : Error) (w : World)
| OutOfFuel (w : World).
Arguments Fulfilled {A} a w.
Arguments Rejected {A} reason w.
Arguments OutOfFuel {A} w.

Definition M (A : Type) : Type := World → Outcome A.

Definition ret {A} (a : A) : M A := λ w, Fulfilled a w.

Definition bind {A B} (m : M A) (k : A → M B) : M B :=
  λ w, match m w with
       | Fulfilled a w' => k a w'
       | Rejected reason w' => Rejected reason w'
       | OutOfFuel w' => OutOfFuel w'
       end.

Notation "'await' x := m 'in' k" := (bind m (λ x, k))
  (at level 10, x binder, m at level 200, k at level 200).

Definition throw {A} (reason : Error) : M A := λ w, Rejected reason w.

Definition emit (ev : Event) : M unit :=
  λ w, Fulfilled tt
         {| rolesCache := rolesCache w; env := env w;
            trace := trace w ++ [ev] |}.

(** [for (const x of l) { await f(x) }] *)
Fixpoint forEach {A} (l : list A) (f : A → M unit) : M unit :=
  match l with
  | [] => ret tt
  | x :: l' => await _ := f x in forEach l' f
  end.

(** ** Sink adapter *)

Definition cacheSet (key : string) (roles : list string) : M unit :=
  λ w, Fulfilled tt
         {| rolesCache := <[key := roles]> (rolesCache w); env := env w;
            trace := trace w ++ [CacheSet key roles] |}.

Definition cacheDelete (key : string) : M unit :=
  λ w, Fulfilled tt
         {| rolesCache := delete key (rolesCache w); env := env w;
            trace := trace w ++ [CacheDelete key] |}.

(** [await supabase.from(TABLE_NAME).upsert(...)] *)
Definition supabaseUpsert (guildId discordId : string) (roles : list string)
  : M (option Error) :=
  λ w, let '(e, error) := sink_upsert (env w) guildId discordId roles in
       Fulfilled error
         {| rolesCache := rolesCache w; env := e;
            trace := trace w ++ [SinkUpsert guildId discordId roles error] |}.

(** [await supabase.from(TABLE_NAME).delete().eq(...).eq(...)] *)
Definition supabaseDelete (guildId discordId : string) : M (option Error) :=
  λ w, let '(e, error) := sink_delete (env w) guildId discordId in
       Fulfilled error
         {| rolesCache := rolesCache w; env := e;
            trace := trace w ++ [SinkDelete guildId discordId error] |}.

Definition upsertUserRoles (guildId discordId : string) (roles : list string)
  : M unit :=
  await error := supabaseUpsert guildId discordId roles in
  match error with
  | Some message => emit (ConsoleError (FailedUpsert discordId guildId message))
  | None => cacheSet (cacheKey guildId discordId) roles
  end.

Definition removeUserRoles (guildId discordId : string) : M unit :=
  await error := supabaseDelete guildId discordId in
  match error with
  | Some message => emit (ConsoleError (FailedRemove discordId guildId message))
  | None =>
      await _ := cacheDelete (cacheKey guildId discordId) in
      emit (ConsoleLog (Removed discordId guildId))
  end.

(** ** Change comparison *)

(** [a.symmetricDifference(b)] on JS [Set]s. *)
Definition symmetricDifference (a b : gset string) : gset string :=
  (a ∖ b) ∪ (b ∖ a).

(** The part of [syncUserRoles] that runs before its only [await]: look the
    key up and compare; the answer is the upsert to issue, if any. *)
Definition syncUserRoles_decide (cache : JsMap)
    (guildId discordId : string) (roles : list string) : option Upsert :=
  let key := cacheKey guildId discordId in
  match cache !! key with
  | Some existing =>
      let cachedRoles : gset string := list_to_set existing in
      let discordRoles : gset string := list_to_set roles in
      if Nat.eqb (size (symmetricDifference cachedRoles discordRoles)) 0
      then None
      else Some (guildId, discordId, roles)
  | None => Some (guildId, discordId, roles)
  end.

Definition runUpsert (u : Upsert) : M unit :=
  let '(guildId, discordId, roles) := u in
  upsertUserRoles guildId discordId roles.

Definition syncUserRoles (guildId discordId : string) (roles : list string)
  : M unit :=
  λ w, match syncUserRoles_decide (rolesCache w) guildId discordId roles with
       | None => Fulfilled tt w
       | Some u => runUpsert u w
       end.

(** ** Cache seeding: [fetchAllSupabaseRoles] *)

(** One turn of the loop over the rows that fills the fresh [cache]. *)
Definition seedRow (cache : JsMap) (row : UserRoleRow) : JsMap :=
  if truthy (guild_snowflake row) && truthy (discord_id row)
  then <[cacheKey (guild_snowflake row) (discord_id row) :=
           default [] (discord_role row)]> cache
  else cache.

Definition seedCache (data : list UserRoleRow) : JsMap :=
  foldl seedRow ∅ data.

Definition fetchAllSupabaseRoles (guildIds : list string)
  : M JsMap :=
  λ w, let '(e, answer) := sink_select (env w) guildIds in
       let w' := {| rolesCache := rolesCache w; env := e;
                    trace := trace w ++ [SinkSelect guildIds] |} in
       match answer with
       | inl error => Rejected error w'
       | inr data => Fulfilled (seedCache data) w'
       end.

(** ** Pagination *)

Definition fetchGuildMembersPage (guildId : string) (after : option string)
  : M (list APIGuildMember) :=
  let query := {| limit := PAGE_LIMIT;
                  after := if truthy_opt after then after else None |} in
  λ w, let '(e, answer) := rest_get (env w) guildId query in
       let w' := {| rolesCache := rolesCache w; env := e;
                    trace := trace w ++ [RestGet guildId query] |} in
       match answer with
       | inl error => Rejected error w'
       | inr page => Fulfilled page w'
       end.

(** The [while (page.length === PAGE_LIMIT)] loop; [guildMembers] already
    holds [page].  Reading [.user] of a missing last element would be a
    [TypeError]; the loop condition excludes it. *)
Fixpoint fetchRemainingPages (fuel : nat) (guildId : string)
    (guildMembers page : list APIGuildMember) : M (list APIGuildMember) :=
  if Nat.eqb (length page) PAGE_LIMIT then
    match fuel with
    | 0 => λ w, OutOfFuel w
    | S fuel' =>
        match last guildMembers with
        | None => throw "TypeError"
        | Some lastMember =>
            await page' := fetchGuildMembersPage guildId (user_id lastMember) in
            fetchRemainingPages fuel' guildId (guildMembers ++ page') page'
        end
    end
  else ret guildMembers.

Definition fetchAllGuildMembers (fuel : nat) (guildId : string)
  : M (list APIGuildMember) :=
  await page := fetchGuildMembersPage guildId None in
  fetchRemainingPages fuel guildId page page.

(** ** Syncing the members of one guild *)

Inductive PromiseSettledResult :=
| fulfilled
| rejected (reason : Error).

Definition is_rejected (r : PromiseSettledResult) : bool :=
  match r with
  | fulfilled => false
  | rejected _ => true
  end.

(** The promise of [m] settles; a rejection becomes a value. *)
Definition settle (m : M unit) : M PromiseSettledResult :=
  λ w, match m w with
       | Fulfilled _ w' => Fulfilled fulfilled w'
       | Rejected reason w' => Fulfilled (rejected reason) w'
       | OutOfFuel w' => OutOfFuel w'
       end.

Fixpoint settleEach (us : list Upsert) : M (list PromiseSettledResult) :=
  match us with
  | [] => ret []
  | u :: us' =>
      await r := settle (runUpsert u) in
      await rs := settleEach us' in
      ret (r :: rs)
  end.

(** [guildMembers.filter(member => member.user?.id)] *)
Definition withUserId (guildMembers : list APIGuildMember)
  : list APIGuildMember :=
  List.filter (λ member, truthy_opt (user_id member)) guildMembers.

(** [syncUserRoles(guildId, member.user!.id, member.roles)] up to its
    [await]. *)
Definition startSync (cache : JsMap) (guildId : string)
    (member : APIGuildMember) : option Upsert :=
  match user member with
  | Some u => syncUserRoles_decide cache guildId (id u) (roles member)
  | None => None
  end.

(** [Promise.allSettled(guildMembers.filter(...).map(...))].  The callback of
    [map] runs every [syncUserRoles] up to its [await] before any upsert is
    answered, so every comparison reads the cache as it is when the batch
    starts.  The upserts then complete in the order [settle_order].  The
    promises that returned without an upsert are fulfilled; only the results
    of the upserts are listed, which is all [failures] depends on. *)
Definition syncAllMembers (guildId : string)
    (guildMembers : list APIGuildMember) : M (list PromiseSettledResult) :=
  λ w, let inFlight :=
         omap (startSync (rolesCache w) guildId) (withUserId guildMembers) in
       settleEach (settle_order inFlight) w.

(** ** Removing users no longer in the guild *)

(** [new Set(guildMembers.map(m => m.user?.id).filter(Boolean))] *)
Definition discordUserIds (guildMembers : list APIGuildMember)
  : gset (option string) :=
  list_to_set (List.filter truthy_opt (map user_id guildMembers)).

(** [[...rolesCache.keys()].filter(key => key.startsWith(`${guildId}:`))] *)
Definition cachedKeys (cache : JsMap) (guildId : string)
  : list string :=
  List.filter (λ key, startsWith key (guildId +:+ ":")) (keys cache).

(** [key.split(':')[1]], [undefined] when there is no second field. *)
Definition keyDiscordId (key : string) : option string :=
  split colon key !! 1%nat.

(** The body of the loop over [cachedKeys]; [undefined] prints as
    "undefined" in the key and in the query. *)
Definition removeIfDeparted (guildId : string) (ids : gset (option string))
    (key : string) : M unit :=
  let discordId := keyDiscordId key in
  if bool_decide (discordId ∈ ids) then ret tt
  else removeUserRoles guildId (default "undefined" discordId).

Definition removeDeparted (guildId : string)
    (guildMembers : list APIGuildMember) : M unit :=
  λ w, forEach (cachedKeys (rolesCache w) guildId)
         (removeIfDeparted guildId (discordUserIds guildMembers)) w.

(** The member identifiers for which [removeUserRoles] is called. *)
Definition staleIds (cache : JsMap) (guildId : string)
    (guildMembers : list APIGuildMember) : list string :=
  omap (λ key, let discordId := keyDiscordId key in
               if bool_decide (discordId ∈ discordUserIds guildMembers)
               then None else Some (default "undefined" discordId))
    (cachedKeys cache guildId).

(** ** [initialSync] *)

(** The body of the loop over [guildIds]. *)
Definition syncGuild (fuel : nat) (guildId : string) : M unit :=
  await _ := emit (ConsoleLog (SyncingGuild guildId)) in
  await guildMembers := fetchAllGuildMembers fuel guildId in
  await _ := emit (ConsoleLog (FoundMembers (length guildMembers) guildId)) in
  await syncResults := syncAllMembers guildId guildMembers in
  let failures := List.filter is_rejected syncResults in
  await _ := (if Nat.ltb 0 (length failures)
              then emit (ConsoleError (FailedToSync (length failures) guildId))
              else ret tt) in
  removeDeparted guildId guildMembers.

Definition initialSync (fuel : nat) (guildIds : list string) : M unit :=
  forEach guildIds (syncGuild fuel).

End Engine.

Arguments Fulfilled {E A} a w.
Arguments Rejected {E A} reason w.
Arguments OutOfFuel {E A} w.

(** The state an outcome was reached in. *)
Definition world_of {E A} (o : @Outcome E A) : @World E :=
  match o with
  | Fulfilled _ w | Rejected _ w | OutOfFuel w => w
  end.

(** The promise settles: it is fulfilled or rejected. *)
Definition settles {E A} (o : @Outcome E A) : Prop :=
  match o with
  | Fulfilled _ _ | Rejected _ _ => True
  | OutOfFuel _ => False
  end.

Definition is_fulfilled {E A} (o : @Outcome E A) : bool :=
  match o with
  | Fulfilled _ _ => true
  | _ => false
  end.

(** ** Observations on traces *)

(** The upserts sent to the sink, in order; those the sink confirmed; those
    it refused. *)
Definition upsertCalls (tr : list Event) : list Upsert :=
  omap (λ ev, match ev with
              | SinkUpsert g d r _ => Some (g, d, r)
              | _ => None
              end) tr.

Definition upsertsConfirmed (tr : list Event) : list Upsert :=
  omap (λ ev, match ev with
              | SinkUpsert g d r None => Some (g, d, r)
              | _ => None
              end) tr.

Definition upsertsRefused (tr : list Event) : list Upsert :=
  omap (λ ev, match ev with
              | SinkUpsert g d r (Some _) => Some (g, d, r)
              | _ => None
              end) tr.

(** The deletes sent to the sink, in order, and those it confirmed. *)
Definition deleteCalls (tr : list Event) : list (string * string) :=
  omap (λ ev, match ev with
              | SinkDelete g d _ => Some (g, d)
              | _ => None
              end) tr.

Definition deletesConfirmed (tr : list Event) : list (string * string) :=
  omap (λ ev, match ev with
              | SinkDelete g d None => Some (g, d)
              | _ => None
              end) tr.

(** The member page requests, in order. *)
Definition restCalls (tr : list Event) : list (string * Query) :=
  omap (λ ev, match ev with
              | RestGet g q => Some (g, q)
              | _ => None
              end) tr.

(** What one event means for a mirror of the sink: a confirmed upsert writes
    the row, a confirmed delete removes it, nothing else counts. *)
Definition confirm (cache : JsMap) (ev : Event) : JsMap :=
  match ev with
  | SinkUpsert g d r None => <[cacheKey g d := r]> cache
  | SinkDelete g d None => delete (cacheKey g d) cache
  | _ => cache
  end.

Definition applyConfirmed (tr : list Event) (cache : JsMap) : JsMap :=
  foldl confirm cache tr.

Definition is_cache_event (ev : Event) : bool :=
  match ev with
  | CacheSet _ _ | CacheDelete _ => true
  | _ => false
  end.

(** A trace is write-through when every cache mutation comes directly after
    the sink call that confirmed the same mutation. *)
Inductive write_through : list Event → Prop :=
| wt_nil : write_through []
| wt_set g d r tr :
    write_through tr →
    write_through (SinkUpsert g d r None :: CacheSet (cacheKey g d) r :: tr)
| wt_delete g d tr :
    write_through tr →
    write_through (SinkDelete g d None :: CacheDelete (cacheKey g d) :: tr)
| wt_other ev tr :
    is_cache_event ev = false →
    write_through tr →
    write_through (ev :: tr).

(** ** The statements of the specification *)

(** The comparator in the words of the specification: an absent entry always
    counts as changed; a present one counts as changed when some role is in
    one of the two lists and not in the other. *)
Definition hasChanged (cached : option (list string))
    (observed : list string) : Prop :=
  match cached with
  | None => True
  | Some known =>
      ∃ role, (role ∈ known ∧ role ∉ observed) ∨
              (role ∈ observed ∧ role ∉ known)
  end.

(** Every key of the cache was built by [cacheKey] from identifiers without
    [":"]. *)
Definition cache_wf (cache : JsMap) : Prop :=
  ∀ key, is_Some (cache !! key) →
    ∃ g d, key = cacheKey g d ∧ colon_free g = true ∧ colon_free d = true.

Definition row_wf (row : UserRoleRow) : Prop :=
  colon_free (guild_snowflake row) = true ∧
  colon_free (discord_id row) = true.

(** The member identifiers of the rows of one guild. *)
Definition rowIds (guildId : string) (rows : list UserRoleRow) : list string :=
  map discord_id
    (List.filter (λ row, String.eqb (guild_snowflake row) guildId) rows).

(** The request for the page after [cursor]. *)
Definition pageQuery (cursor : option string) : Query :=
  {| limit := PAGE_LIMIT; after := cursor |}.

(** The cursor that a page yields: the identifier of its last item, when it
    has one that is truthy. *)
Definition nextCursor (page : list APIGuildMember) : option string :=
  match last page with
  | Some lastMember =>
      if truthy_opt (user_id lastMember) then user_id lastMember else None
  | None => None
  end.

Section Statements.
Context {E : Type} `{Collaborators E}.

(** [follows w w' evs]: the state [w'] is reached from [w] by the events
    [evs], which are write-through, and the cache has changed by exactly the
    mutations that the sink confirmed, in their order. *)
Definition follows (w w' : @World E) (evs : list Event) : Prop :=
  trace w' = trace w ++ evs ∧
  write_through evs ∧
  rolesCache w' = applyConfirmed evs (rolesCache w).

Definition WriteThrough {A} (m : @M E A) : Prop :=
  ∀ w, ∃ evs, follows w (world_of (m w)) evs.

(** The pager in the words of the specification: call the collaborator with
    the cursor of the previous page and stop at the first page with fewer
    items than the bound.  [pager g e cursor pages calls e'] lists the pages
    received and the requests made from state [e] on. *)
Inductive pager (guildId : string)
  : E → option string → list (list APIGuildMember) → list Query → E → Prop :=
| pager_stop e cursor e' page :
    rest_get e guildId (pageQuery cursor) = (e', inr page) →
    length page < PAGE_LIMIT →
    pager guildId e cursor [page] [pageQuery cursor] e'
| pager_next e cursor e1 page pages calls e' :
    rest_get e guildId (pageQuery cursor) = (e1, inr page) →
    length page = PAGE_LIMIT →
    pager guildId e1 (nextCursor page) pages calls e' →
    pager guildId e cursor (page :: pages) (pageQuery cursor :: calls) e'.

End Statements.

(** ** Test collaborators *)

(** A scripted double: page requests are answered from [script] in order,
    whatever the cursor, and by an empty page once the script is used up; the
    sink holds the rows of [table], of which a select returns those of the
    guilds asked for, and refuses every mutation of a member listed in
    [refused]; upserts in flight complete in the order they were issued. *)
Record MockEnv := {
  script : list (Error + list APIGuildMember);
  refused : list string;
  table : list UserRoleRow
}.

Definition mockAnswer (e : MockEnv) (discordId : string) : option Error :=
  if bool_decide (discordId ∈ refused e) then Some "refused" else None.

#[export] Instance mock : Collaborators MockEnv := {|
  rest_get e _ _ :=
    match script e with
    | [] => (e, inr [])
    | answer :: rest =>
        ({| script := rest; refused := refused e; table := table e |}, answer)
    end;
  sink_select e guildIds :=
    (e, inr (List.filter
               (λ row, bool_decide (guild_snowflake row ∈ guildIds))
               (table e)));
  sink_upsert e _ discordId _ := (e, mockAnswer e discordId);
  sink_delete e _ discordId := (e, mockAnswer e discordId);
  settle_order l := l;
  settle_order_perm l := Permutation_refl l
|}.

Definition member (discordId : string) (rs : list string) : APIGuildMember :=
  {| user := Some {| id := discordId |}; roles := rs |}.

(** A full page whose last item is [lastMember]. *)
Definition fullPage (lastMember : APIGuildMember) : list APIGuildMember :=
  replicate (PAGE_LIMIT - 1) (member "7" []) ++ [lastMember].

Definition shortPage : list APIGuildMember := replicate 37 (member "8" []).

(** A server that pages by cursor: the first page is full and ends with
    member "1000"; the page after "1000" is short. *)
Inductive Advancing := advancing.

#[export] Instance advancing_server : Collaborators Advancing := {|
  rest_get e _ q :=
    match after q with
    | None => (e, inr (fullPage (member "1000" [])))
    | Some cursor =>
        (e, inr (if String.eqb cursor "1000" then shortPage else []))
    end;
  sink_select e _ := (e, inr []);
  sink_upsert e _ _ _ := (e, None);
  sink_delete e _ _ := (e, None);
  settle_order l := reverse l;
  settle_order_perm l := reverse_Permutation l
|}.

(** The same server when the last member of its first page has no user. *)
Inductive Restarting := restarting.

#[export] Instance restarting_server : Collaborators Restarting := {|
  rest_get e _ q :=
    match after q with
    | None => (e, inr (fullPage {| user := None; roles := [] |}))
    | Some _ => (e, inr [])
    end;
  sink_select e _ := (e, inr []);
  sink_upsert e _ _ _ := (e, None);
  sink_delete e _ _ := (e, None);
  settle_order l := l;
  settle_order_perm l := Permutation_refl l
|}.

Definition mockWorld (cache : JsMap)
    (answers : list (Error + list APIGuildMember)) (refuse : list string)
  : @World MockEnv :=
  {| rolesCache := cache;
     env := {| script := answers; refused := refuse; table := [] |};
     trace := [] |}.

Definition row (guildId discordId : string) (rs : list string) : UserRoleRow :=
  {| guild_snowflake := guildId; discord_id := discordId;
     discord_role := Some rs |}.

(** Three cached members of guild "g". *)
Definition rows123 : list UserRoleRow :=
  [row "g" "1" ["r"]; row "g" "2" []; row "g" "3" ["r"]].

(** What remains to fetch from the paging server after a cursor. *)
Definition pagesLeft (e : Advancing) (cursor : option string) : nat :=
  match cursor with
  | None => 1
  | Some _ => 0
  end.

(** ** Statements about whole runs *)

(** A page request of one guild, with the limit of the code and a cursor that
    is absent or not empty. *)
Definition page_request (guildId : string) (ev : Event) : Prop :=
  ∃ cursor, ev = RestGet guildId (pageQuery cursor) ∧ cursor ≠ Some "".

(** What an event may be when only the guilds [guildIds] are reconciled: a
    page request, an upsert, a delete or a cache mutation of one of these
    guilds (an upsert only for a member with an identifier), or a console
    line; never a select. *)
Definition within_guilds (guildIds : list string) (ev : Event) : Prop :=
  match ev with
  | RestGet g q => g ∈ guildIds ∧ limit q = PAGE_LIMIT ∧ after q ≠ Some ""
  | SinkSelect _ => False
  | SinkUpsert g d _ _ => g ∈ guildIds ∧ truthy d = true
  | SinkDelete g _ _ => g ∈ guildIds
  | CacheSet key _ | CacheDelete key =>
      ∃ g d, g ∈ guildIds ∧ key = cacheKey g d
  | ConsoleLog _ | ConsoleError _ => True
  end.

(** The event is an effect of syncing a member of [guildId] that has an
    identifier: its upsert, the cache update or the error line. *)
Definition sync_event (guildId : string) (ev : Event) : Prop :=
  match ev with
  | SinkUpsert g d _ _ => g = guildId ∧ truthy d = true
  | CacheSet key _ => ∃ d, key = cacheKey guildId d
  | ConsoleError _ => True
  | _ => False
  end.

(** The event is an effect of removing a member of [guildId]. *)
Definition prune_event (guildId : string) (ev : Event) : Prop :=
  match ev with
  | SinkDelete g _ _ => g = guildId
  | CacheDelete key => ∃ d, key = cacheKey guildId d
  | ConsoleLog _ | ConsoleError _ => True
  | _ => False
  end.

Section RunStatements.
Context {E : Type} `{Collaborators E}.

(** Every event of a run of [m], however it ends, satisfies [P]. *)
Definition Emits {A} (P : Event → Prop) (m : @M E A) : Prop :=
  ∀ w, ∃ evs, trace (world_of (m w)) = trace w ++ evs ∧ Forall P evs.

(** A run of [m], however it ends, leaves the cache as it was. *)
Definition KeepsCache {A} (m : @M E A) : Prop :=
  ∀ w, rolesCache (world_of (m w)) = rolesCache w.

End RunStatements.

(** The events between two states of one run. *)
Definition since {E} (w w' : @World E) : list Event :=
  drop (length (trace w)) (trace w').

(** The deletes that the sink refused. *)
Definition deletesRefused (tr : list Event) : list (string * string) :=
  omap (λ ev, match ev with
              | SinkDelete g d (Some _) => Some (g, d)
              | _ => None
              end) tr.

(** The same roles, as sets. *)
Definition sameRoles (a b : list string) : Prop :=
  ∀ role, role ∈ a ↔ role ∈ b.

(** The non-empty identifiers of the fetched members, in order. *)
Definition memberIds (ms : list APIGuildMember) : list string :=
  omap (λ m, match user_id m with
             | Some d => if truthy d then Some d else None
             | None => None
             end) ms.

(** The cache agrees with the fetched members of a guild: every member with
    an identifier is cached with the roles observed for it. *)
Definition inSync (cache : JsMap) (guildId : string)
    (ms : list APIGuildMember) : Prop :=
  ∀ m d, m ∈ ms → user_id m = Some d → truthy d = true →
    ∃ r, cache !! cacheKey guildId d = Some r ∧ sameRoles r (roles m).

(** No member of the guild is cached that was not fetched. *)
Definition noDeparted (cache : JsMap) (guildId : string)
    (ms : list APIGuildMember) : Prop :=
  ∀ d, is_Some (cache !! cacheKey guildId d) → Some d ∈ discordUserIds ms.

(** The row is loaded into the cache, under the key of this guild and this
    member. *)
Definition loads (guildId discordId : string) (row : UserRoleRow) : bool :=
  truthy (guild_snowflake row) && truthy (discord_id row) &&
  String.eqb (guild_snowflake row) guildId &&
  String.eqb (discord_id row) discordId.

(** ** Configuration

    Strings are sequences of code units below 256; among these the white
    space of JS ([WhiteSpace] and [LineTerminator]) is U+0009 to U+000D,
    U+0020 and U+00A0. *)

Definition comma : ascii := ","%char.

Definition is_whitespace (c : ascii) : bool :=
  let n := nat_of_ascii c in
  Nat.leb 9 n && Nat.leb n 13 || Nat.eqb n 32 || Nat.eqb n 160.

(** Every character of the string satisfies [P]. *)
Fixpoint all_chars (P : ascii → bool) (s : string) : bool :=
  match s with
  | EmptyString => true
  | String c s' => P c && all_chars P s'
  end.

(** The character does not occur in the string. *)
Definition lacks (c : ascii) (s : string) : bool :=
  all_chars (λ x, negb (Ascii.eqb x c)) s.

(** [s.trimStart()], [s.trimEnd()], [s.trim()] *)
Fixpoint trimStart (s : string) : string :=
  match s with
  | EmptyString => EmptyString
  | String c s' => if is_whitespace c then trimStart s' else s
  end.

Fixpoint trimEnd (s : string) : string :=
  match s with
  | EmptyString => EmptyString
  | String c s' =>
      match trimEnd s' with
      | EmptyString => if is_whitespace c then EmptyString
                       else String c EmptyString
      | t => String c t
      end
  end.

Definition trim (s : string) : string := trimEnd (trimStart s).

(** [l.join(sep)] for a one-character separator. *)
Fixpoint join (sep : ascii) (l : list string) : string :=
  match l with
  | [] => EmptyString
  | [x] => x
  | x :: l' => x +:+ String sep (join sep l')
  end.

(** [Deno.env.get("GUILD_SNOWFLAKES")?.split(",").map(s => s.trim())
      .filter(Boolean) ?? []] *)
Definition parseGuildIds (value : option string) : list string :=
  match value with
  | Some s => List.filter truthy (map trim (split comma s))
  | None => []
  end.

(** The four variables read from the environment. *)
Record DenoEnv := {
  SUPABASE_URL : option string;
  SUPABASE_KEY : option string;
  GUILD_SNOWFLAKES : option string;
  DISCORD_TOKEN : option string
}.

Record Config := {
  supabaseUrl : option string;
  supabaseKey : option string;
  guildIds : list string;
  discordToken : option string
}.

(** The configuration block at the top of the module: the constants, then
    the two checks that throw. *)
Definition loadConfig (vars : DenoEnv) : Error + Config :=
  let config :=
    {| supabaseUrl := SUPABASE_URL vars;
       supabaseKey := SUPABASE_KEY vars;
       guildIds := parseGuildIds (GUILD_SNOWFLAKES vars);
       discordToken := DISCORD_TOKEN vars |} in
  if negb (truthy_opt (discordToken config)) ||
     negb (truthy_opt (supabaseUrl config)) ||
     negb (truthy_opt (supabaseKey config))
  then inl "Missing required env variables: SUPABASE_URL, SUPABASE_KEY, DISCORD_TOKEN"
  else if Nat.eqb (length (guildIds config)) 0
  then inl "Missing GUILD_SNOWFLAKES env variable (comma-separated guild IDs)"
  else inr config.

(** A guild identifier as the parser leaves it: not empty, without comma,
    without white space at either end. *)
Definition clean_id (s : string) : Prop :=
  truthy s = true ∧ lacks comma s = true ∧ trim s = s.

(** ** The gateway handler *)

(** The dispatch events the handler tells apart, each with the fields of its
    payload that the handler reads: [guild_id], [user.id] and [roles]. *)
Inductive Dispatch :=
| Ready
| GuildMemberUpdate (guild_id user_id : string) (roles : list string)
| GuildMemberRemove (guild_id user_id : string)
| OtherDispatch.

(** What the process does while one dispatch is handled: an effect of the
    functions above, one of the two lines that [Ready] logs around the sync,
    or [Deno.exit(code)]. *)
Inductive ProcessEvent :=
| Effect (ev : Event)
| StartingSync (count : nat)
| SyncComplete
| Exit (code : nat).

Section Handler.
Context {E : Type} `{Collaborators E}.

(** Run [m] and report its events since the start. *)
Definition engine {A} (m : @M E A) (w : @World E)
  : list ProcessEvent * @Outcome E A :=
  let o := m w in (Effect <$> since w (world_of o), o).

(** The listener of [WebSocketShardEvents.Dispatch].  After [Deno.exit]
    nothing runs; the outcome reported for [Ready] is the one of
    [initialSync]. *)
Definition onDispatch (fuel : nat) (guildIds : list string)
    (event : Dispatch) (w : @World E)
  : list ProcessEvent * @Outcome E unit :=
  match event with
  | Ready =>
      let (evs, o) := engine (initialSync fuel guildIds) w in
      (StartingSync (length guildIds) :: evs ++
         (if is_fulfilled o then [SyncComplete; Exit 0] else []), o)
  | GuildMemberUpdate guild_id user_id roles =>
      if bool_decide (guild_id ∈ guildIds)
      then engine (syncUserRoles guild_id user_id roles) w
      else ([], Fulfilled tt w)
  | GuildMemberRemove guild_id user_id =>
      if bool_decide (guild_id ∈ guildIds)
      then engine (removeUserRoles guild_id user_id) w
      else ([], Fulfilled tt w)
  | OtherDispatch => ([], Fulfilled tt w)
  end.

End Handler.

(** The event is about one of the guilds [guildIds]: a request, an upsert, a
    delete or a cache mutation names one of them; no rows are selected. *)
Definition concerns (guildIds : list string) (ev : Event) : Prop :=
  match ev with
  | RestGet g _ | SinkUpsert g _ _ _ | SinkDelete g _ _ => g ∈ guildIds
  | SinkSelect _ => False
  | CacheSet key _ | CacheDelete key =>
      ∃ g d, g ∈ guildIds ∧ key = cacheKey g d
  | ConsoleLog _ | ConsoleError _ => True
  end.

Definition process_concerns (guildIds : list string) (pe : ProcessEvent)
  : Prop :=
  match pe with
  | Effect ev => concerns guildIds ev
  | _ => True
  end.

Definition is_effect (pe : ProcessEvent) : bool :=
  match pe with
  | Effect _ => true
  | _ => false
  end.

(** A server with the same two members in every guild, and a sink that
    refuses every mutation. *)
Inductive Refusing := refusing.

#[export] Instance refusing_sink : Collaborators Refusing := {|
  rest_get e _ _ := (e, inr [member "1" ["r"]; member "2" []]);
  sink_select e _ := (e, inr []);
  sink_upsert e _ _ _ := (e, Some "refused");
  sink_delete e _ _ := (e, Some "refused");
  settle_order l := l;
  settle_order_perm l := Permutation_refl l
|}.

(** * Properties *)

(** ** The JS [Map] *)

Lemma get_empty (key : string) : (∅ : JsMap) !! key = None.
Proof. reflexivity. Qed.

Lemma get_set_eq (m : JsMap) (key : string) (value : list string) :
  <[key := value]> m !! key = Some value.
Proof.
  destruct m as [l]. unfold lookup, insert, JsMap_get, JsMap_set.
  cbn [entries]. induction l as [|[k v] l IH]; cbn [entries_set entries_get].
  - by rewrite String.eqb_refl.
  - destruct (String.eqb k key) eqn:Hk; cbn [entries_get]; by rewrite Hk.
Qed.

Lemma get_set_ne (m : JsMap) (key key' : string) (value : list string) :
  key ≠ key' → <[key := value]> m !! key' = m !! key'.
Proof.
  intros Hne. destruct m as [l]. unfold lookup, insert, JsMap_get, JsMap_set.
  cbn [entries]. induction l as [|[k v] l IH]; cbn [entries_set entries_get].
  - by apply String.eqb_neq in Hne as ->.
  - destruct (String.eqb k key) eqn:Hk; cbn [entries_get].
    + apply String.eqb_eq in Hk as ->.
      by apply String.eqb_neq in Hne as ->.
    + by rewrite IH.
Qed.

Lemma get_delete_eq (m : JsMap) (key : string) : delete key m !! key = None.
Proof.
  destruct m as [l]. unfold lookup, delete, JsMap_get, JsMap_delete.
  cbn [entries]. unfold entries_delete.
  induction l as [|[k v] l IH]; [done|]. cbn [List.filter fst].
  destruct (String.eqb k key) eqn:Hk; cbn [negb entries_get]; [done|].
  by rewrite Hk.
Qed.

Lemma get_delete_ne (m : JsMap) (key key' : string) :
  key ≠ key' → delete key m !! key' = m !! key'.
Proof.
  intros Hne. destruct m as [l]. unfold lookup, delete, JsMap_get, JsMap_delete.
  cbn [entries]. unfold entries_delete.
  induction l as [|[k v] l IH]; [done|]. cbn [List.filter fst].
  destruct (String.eqb k key) eqn:Hk; cbn [negb entries_get].
  - apply String.eqb_eq in Hk as ->.
    by apply String.eqb_neq in Hne as ->.
  - by rewrite IH.
Qed.

Lemma get_delete_Some (m : JsMap) (key key' : string) (value : list string) :
  delete key m !! key' = Some value ↔ key ≠ key' ∧ m !! key' = Some value.
Proof.
  destruct (decide (key = key')) as [->|Hne].
  - rewrite get_delete_eq. by split; [|intros []].
  - rewrite get_delete_ne by done. by split; [|intros []].
Qed.

Lemma get_delete_None (m : JsMap) (key key' : string) :
  delete key m !! key' = None ↔ key = key' ∨ m !! key' = None.
Proof.
  destruct (decide (key = key')) as [->|Hne].
  - rewrite get_delete_eq. by split; [left|].
  - rewrite get_delete_ne by done. by split; [right|intros []].
Qed.

(** The keys visited are the keys that [get] finds. *)
Lemma elem_of_keys (m : JsMap) (key : string) :
  key ∈ keys m ↔ is_Some (m !! key).
Proof.
  destruct m as [l]. unfold keys, lookup, JsMap_get. cbn [entries].
  induction l as [|[k v] l IH]; cbn [map fst entries_get].
  - split; [by intros ?%elem_of_nil|by intros [? ?]].
  - rewrite elem_of_cons, IH. destruct (String.eqb k key) eqn:Hk.
    + apply String.eqb_eq in Hk as ->. split; [by eexists|by left].
    + apply String.eqb_neq in Hk. split; [by intros [->|?]|by right].
Qed.

(** ** Cache keys *)

Lemma append_inj_l (p x y : string) : p +:+ x = p +:+ y → x = y.
Proof.
  induction p as [|c p IH]; simpl; [done|].
  intros Heq. injection Heq as Heq. by apply IH.
Qed.

Lemma append_cons (c : ascii) (p x : string) :
  String c p +:+ x = String c (p +:+ x).
Proof. reflexivity. Qed.

Lemma prefix_empty (s : string) : String.prefix "" s = true.
Proof. by destruct s. Qed.

Lemma prefix_cons (a b : ascii) (p s : string) :
  String.prefix (String a p) (String b s) = true ↔
  a = b ∧ String.prefix p s = true.
Proof.
  simpl. destruct (ascii_dec a b) as [->|Hne].
  - split; [by intros ?|by intros [_ ?]].
  - split; [done|]. by intros [? _].
Qed.

Lemma colon_free_cons (c : ascii) (s : string) :
  colon_free (String c s) = true ↔ c ≠ colon ∧ colon_free s = true.
Proof.
  simpl. rewrite andb_true_iff, negb_true_iff.
  by rewrite <-(not_true_iff_false (Ascii.eqb c colon)), Ascii.eqb_eq.
Qed.

(** A string that starts with something followed by [":"] has a [":"]. *)
Lemma prefix_colon_not_free (p s : string) :
  String.prefix (p +:+ ":") s = true → colon_free s = false.
Proof.
  revert s. induction p as [|a p IH]; intros [|b s]; try done;
    cbn [String.append]; intros [<- Hp]%prefix_cons.
  - done.
  - cbn [colon_free]. rewrite (IH _ Hp). apply andb_false_r.
Qed.

Lemma startsWith_cacheKey_self (g d : string) :
  startsWith (cacheKey g d) (g +:+ ":") = true.
Proof.
  unfold startsWith, cacheKey.
  induction g as [|c g IH]; cbn [String.append]; apply prefix_cons.
  - split; [done|apply prefix_empty].
  - done.
Qed.

(** The guild of a well-formed key is the only guild whose prefix it has. *)
Lemma startsWith_cacheKey_inv (g g' d : string) :
  colon_free g' = true → colon_free d = true →
  startsWith (cacheKey g' d) (g +:+ ":") = true → g = g'.
Proof.
  unfold startsWith, cacheKey. revert g.
  induction g' as [|c g' IH]; intros g Hg' Hd.
  - destruct g as [|a g]; [done|]. cbn [String.append].
    intros [_ Hp]%prefix_cons.
    apply prefix_colon_not_free in Hp. congruence.
  - apply colon_free_cons in Hg' as [Hc Hg'].
    destruct g as [|a g]; cbn [String.append].
    + intros [Heq _]%prefix_cons. by subst c.
    + intros [-> Hp]%prefix_cons. f_equal. by apply IH.
Qed.

Lemma split_colon_free (s : string) :
  colon_free s = true → split colon s = [s].
Proof.
  induction s as [|c s IH]; [done|].
  intros [Hc Hs]%colon_free_cons. cbn [split].
  apply Ascii.eqb_neq in Hc. rewrite Hc. by rewrite (IH Hs).
Qed.

Lemma split_cacheKey (g d : string) :
  colon_free g = true → split colon (cacheKey g d) = g :: split colon d.
Proof.
  unfold cacheKey. induction g as [|c g IH]; [done|].
  intros [Hc Hg]%colon_free_cons. rewrite append_cons. cbn [split].
  apply Ascii.eqb_neq in Hc. rewrite Hc. by rewrite (IH Hg).
Qed.

Lemma keyDiscordId_cacheKey (g d : string) :
  colon_free g = true → colon_free d = true →
  keyDiscordId (cacheKey g d) = Some d.
Proof.
  intros Hg Hd. unfold keyDiscordId.
  by rewrite (split_cacheKey _ _ Hg), (split_colon_free _ Hd).
Qed.

(** Two well-formed keys are equal only when built from the same pair. *)
Lemma cacheKey_inj (g d g' d' : string) :
  colon_free g' = true → colon_free d' = true →
  cacheKey g d = cacheKey g' d' → g = g' ∧ d = d'.
Proof.
  intros Hg' Hd' Heq.
  assert (g = g') as ->.
  { apply (startsWith_cacheKey_inv g g' d' Hg' Hd').
    rewrite <-Heq. apply startsWith_cacheKey_self. }
  split; [done|]. unfold cacheKey in Heq.
  apply append_inj_l in Heq. by apply (append_inj_l ":") in Heq.
Qed.

(** ** Traces *)

Lemma upsertCalls_app (a b : list Event) :
  upsertCalls (a ++ b) = upsertCalls a ++ upsertCalls b.
Proof. apply omap_app. Qed.

Lemma upsertsConfirmed_app (a b : list Event) :
  upsertsConfirmed (a ++ b) = upsertsConfirmed a ++ upsertsConfirmed b.
Proof. apply omap_app. Qed.

Lemma deleteCalls_app (a b : list Event) :
  deleteCalls (a ++ b) = deleteCalls a ++ deleteCalls b.
Proof. apply omap_app. Qed.

Lemma deletesConfirmed_app (a b : list Event) :
  deletesConfirmed (a ++ b) = deletesConfirmed a ++ deletesConfirmed b.
Proof. apply omap_app. Qed.

Lemma restCalls_app (a b : list Event) :
  restCalls (a ++ b) = restCalls a ++ restCalls b.
Proof. apply omap_app. Qed.

Lemma applyConfirmed_app (a b : list Event) (cache : JsMap) :
  applyConfirmed (a ++ b) cache = applyConfirmed b (applyConfirmed a cache).
Proof. apply foldl_app. Qed.

Lemma applyConfirmed_cons (ev : Event) (evs : list Event)
    (cache : JsMap) :
  applyConfirmed (ev :: evs) cache = applyConfirmed evs (confirm cache ev).
Proof. reflexivity. Qed.

Lemma write_through_app (a b : list Event) :
  write_through a → write_through b → write_through (a ++ b).
Proof.
  intros Ha Hb. induction Ha; simpl; [done|..]; by constructor.
Qed.

Lemma deletesConfirmed_subseteq (tr : list Event) :
  deletesConfirmed tr ⊆ deleteCalls tr.
Proof.
  intros [g d]. unfold deletesConfirmed, deleteCalls.
  rewrite !list_elem_of_omap. intros (ev & Hin & Hev).
  exists ev. split; [done|]. by destruct ev as [| | |? ? [|]| | | |].
Qed.

(** ** The comparator *)

Lemma elem_of_symmetricDifference (a b : gset string) (x : string) :
  x ∈ symmetricDifference a b ↔ (x ∈ a ∧ x ∉ b) ∨ (x ∈ b ∧ x ∉ a).
Proof.
  unfold symmetricDifference.
  by rewrite elem_of_union, !elem_of_difference.
Qed.

Lemma symmetricDifference_size_0 (known observed : list string) :
  size (symmetricDifference (list_to_set known) (list_to_set observed)) = 0 ↔
  ∀ role, role ∈ known ↔ role ∈ observed.
Proof.
  rewrite size_empty_iff. split.
  - intros Hempty role.
    pose proof (Hempty role) as Hrole.
    rewrite elem_of_symmetricDifference, !elem_of_list_to_set in Hrole.
    pose proof (not_elem_of_empty (C := gset string) role) as Hnot.
    destruct (decide (role ∈ known)), (decide (role ∈ observed)); tauto.
  - intros Hsame role.
    rewrite elem_of_symmetricDifference, !elem_of_list_to_set, Hsame.
    pose proof (not_elem_of_empty (C := gset string) role) as Hnot.
    tauto.
Qed.

Lemma symmetricDifference_same (a : gset string) :
  size (symmetricDifference a a) = 0.
Proof.
  apply size_empty_iff. intros x. rewrite elem_of_symmetricDifference.
  pose proof (not_elem_of_empty (C := gset string) x) as Hnot. tauto.
Qed.

Section Runs.
Context {E : Type} `{Collaborators E}.
Implicit Types (w : @World E) (g d : string) (r : list string).
Implicit Types (cache : JsMap).

Lemma syncUserRoles_decide_cases cache g d r :
  syncUserRoles_decide cache g d r = None ∨
  syncUserRoles_decide cache g d r = Some (g, d, r).
Proof.
  unfold syncUserRoles_decide.
  destruct (cache !! cacheKey g d); [|by right].
  destruct (Nat.eqb _ _); [by left|by right].
Qed.

(** The comparison in the code decides [hasChanged]. *)
Lemma syncUserRoles_decide_changed cache g d r :
  syncUserRoles_decide cache g d r = Some (g, d, r) ↔
  hasChanged (cache !! cacheKey g d) r.
Proof.
  unfold syncUserRoles_decide, hasChanged.
  destruct (cache !! cacheKey g d) as [known|]; [|done].
  destruct (Nat.eqb _ _) eqn:Hsize.
  - apply Nat.eqb_eq in Hsize.
    pose proof (proj1 (symmetricDifference_size_0 known r) Hsize) as Hsame.
    split; [done|]. intros [role Hrole]. specialize (Hsame role). tauto.
  - split; [intros _|done].
    apply Nat.eqb_neq, size_non_empty_iff, set_choose in Hsize
      as [role Hrole].
    exists role.
    by rewrite elem_of_symmetricDifference, !elem_of_list_to_set in Hrole.
Qed.

Lemma syncUserRoles_decide_unchanged cache g d r :
  syncUserRoles_decide cache g d r = None ↔
  ¬ hasChanged (cache !! cacheKey g d) r.
Proof.
  rewrite <-syncUserRoles_decide_changed.
  destruct (syncUserRoles_decide_cases cache g d r) as [-> | ->];
    naive_solver.
Qed.

(** ** The sink adapter, run *)

Lemma upsertUserRoles_run w g d r :
  upsertUserRoles g d r w =
  Fulfilled tt
    match sink_upsert (env w) g d r with
    | (e, Some message) =>
        {| rolesCache := rolesCache w; env := e;
           trace := trace w ++ [SinkUpsert g d r (Some message);
                                ConsoleError (FailedUpsert d g message)] |}
    | (e, None) =>
        {| rolesCache := <[cacheKey g d := r]> (rolesCache w); env := e;
           trace := trace w ++ [SinkUpsert g d r None;
                                CacheSet (cacheKey g d) r] |}
    end.
Proof.
  unfold upsertUserRoles, bind, supabaseUpsert.
  destruct (sink_upsert (env w) g d r) as [e [message|]];
    unfold emit, cacheSet; cbn [rolesCache env trace];
    by rewrite <-app_assoc.
Qed.

Lemma removeUserRoles_run w g d :
  removeUserRoles g d w =
  Fulfilled tt
    match sink_delete (env w) g d with
    | (e, Some message) =>
        {| rolesCache := rolesCache w; env := e;
           trace := trace w ++ [SinkDelete g d (Some message);
                                ConsoleError (FailedRemove d g message)] |}
    | (e, None) =>
        {| rolesCache := delete (cacheKey g d) (rolesCache w); env := e;
           trace := trace w ++ [SinkDelete g d None;
                                CacheDelete (cacheKey g d);
                                ConsoleLog (Removed d g)] |}
    end.
Proof.
  unfold removeUserRoles, bind, supabaseDelete.
  destruct (sink_delete (env w) g d) as [e [message|]];
    unfold emit, cacheDelete, bind; cbn [rolesCache env trace];
    by rewrite <-!app_assoc.
Qed.

Lemma syncUserRoles_run w g d r :
  syncUserRoles g d r w =
  match syncUserRoles_decide (rolesCache w) g d r with
  | None => Fulfilled tt w
  | Some _ => upsertUserRoles g d r w
  end.
Proof.
  unfold syncUserRoles.
  by destruct (syncUserRoles_decide_cases (rolesCache w) g d r) as [-> | ->].
Qed.

End Runs.

(** ** The cache mirrors the confirmed sink mutations *)

Section WriteThrough.
Context {E : Type} `{Collaborators E}.
Implicit Types (w : @World E) (g d : string) (r : list string).

Lemma follows_refl w : follows w w [].
Proof. split_and!; [by rewrite app_nil_r|constructor|done]. Qed.

Lemma follows_trans w1 w2 w3 evs1 evs2 :
  follows w1 w2 evs1 → follows w2 w3 evs2 → follows w1 w3 (evs1 ++ evs2).
Proof.
  intros (Ht1 & Hw1 & Hc1) (Ht2 & Hw2 & Hc2). split_and!.
  - by rewrite Ht2, Ht1, app_assoc.
  - by apply write_through_app.
  - by rewrite Hc2, Hc1, applyConfirmed_app.
Qed.

Lemma follows_event w ev :
  is_cache_event ev = false →
  (∀ g d r, ev ≠ SinkUpsert g d r None) →
  (∀ g d, ev ≠ SinkDelete g d None) →
  ∀ e, follows w {| rolesCache := rolesCache w; env := e;
                    trace := trace w ++ [ev] |} [ev].
Proof.
  intros Hev Hup Hdel e. split_and!; [done|by repeat constructor|].
  destruct ev as [| |? ? ? [|]|? ? [|]| | | |]; try done.
  - by destruct (Hup guildId discordId roles0).
  - by destruct (Hdel guildId discordId).
Qed.

Lemma WriteThrough_ret {A} (a : A) : WriteThrough (@ret E A a).
Proof. intros w. exists []. apply follows_refl. Qed.

Lemma WriteThrough_throw {A} reason : WriteThrough (@throw E A reason).
Proof. intros w. exists []. apply follows_refl. Qed.

Lemma WriteThrough_bind {A B} (m : @M E A) (k : A → @M E B) :
  WriteThrough m → (∀ a, WriteThrough (k a)) → WriteThrough (bind m k).
Proof.
  intros Hm Hk w. destruct (Hm w) as [evs1 H1]. unfold bind.
  destruct (m w) as [a w'|reason w'|w']; [|by exists evs1..].
  destruct (Hk a w') as [evs2 H2]. exists (evs1 ++ evs2).
  by eapply follows_trans.
Qed.

Lemma WriteThrough_emit (line : Console) :
  WriteThrough (@emit E (ConsoleLog line)) ∧
  WriteThrough (@emit E (ConsoleError line)).
Proof.
  split; intros w; eexists; by apply follows_event.
Qed.

Lemma WriteThrough_upsertUserRoles g d r : WriteThrough (upsertUserRoles g d r).
Proof.
  intros w. rewrite upsertUserRoles_run. cbn [world_of].
  destruct (sink_upsert (env w) g d r) as [e [message|]];
    eexists; (split_and!; [done|by repeat constructor|done]).
Qed.

Lemma WriteThrough_removeUserRoles g d : WriteThrough (removeUserRoles g d).
Proof.
  intros w. rewrite removeUserRoles_run. cbn [world_of].
  destruct (sink_delete (env w) g d) as [e [message|]];
    eexists; (split_and!; [done|by repeat constructor|done]).
Qed.

Lemma WriteThrough_syncUserRoles g d r : WriteThrough (syncUserRoles g d r).
Proof.
  intros w. rewrite syncUserRoles_run.
  destruct (syncUserRoles_decide _ _ _ _).
  - apply WriteThrough_upsertUserRoles.
  - exists []. apply follows_refl.
Qed.

Lemma WriteThrough_forEach {A} (l : list A) (f : A → @M E unit) :
  (∀ x, WriteThrough (f x)) → WriteThrough (forEach l f).
Proof.
  intros Hf. induction l as [|x l IH]; [apply WriteThrough_ret|].
  apply WriteThrough_bind; [apply Hf|done].
Qed.

Lemma world_of_settle (m : @M E unit) w :
  world_of (settle m w) = world_of (m w).
Proof. unfold settle. by destruct (m w). Qed.

Lemma WriteThrough_settle (m : @M E unit) : WriteThrough m → WriteThrough (settle m).
Proof. intros Hm w. rewrite world_of_settle. apply Hm. Qed.

Lemma WriteThrough_settleEach (us : list Upsert) : WriteThrough (settleEach us).
Proof.
  induction us as [|[[g d] r] us IH]; [apply WriteThrough_ret|].
  apply WriteThrough_bind.
  { apply WriteThrough_settle, WriteThrough_upsertUserRoles. }
  intros res. apply WriteThrough_bind; [done|]. intros rs. apply WriteThrough_ret.
Qed.

Lemma WriteThrough_fetchGuildMembersPage g cursor :
  WriteThrough (fetchGuildMembersPage g cursor).
Proof.
  intros w. unfold fetchGuildMembersPage.
  destruct (rest_get _ _ _) as [e [reason|page]];
    eexists; by apply follows_event.
Qed.

Lemma WriteThrough_fetchRemainingPages fuel g guildMembers page :
  WriteThrough (fetchRemainingPages fuel g guildMembers page).
Proof.
  revert guildMembers page.
  induction fuel as [|fuel IH]; intros guildMembers page; cbn [fetchRemainingPages];
    destruct (Nat.eqb _ _); try apply WriteThrough_ret.
  - intros w. exists []. apply follows_refl.
  - destruct (last guildMembers); [|apply WriteThrough_throw].
    apply WriteThrough_bind; [apply WriteThrough_fetchGuildMembersPage|].
    intros page'. apply IH.
Qed.

Lemma WriteThrough_syncGuild fuel g : WriteThrough (syncGuild fuel g).
Proof.
  unfold syncGuild.
  apply WriteThrough_bind; [apply WriteThrough_emit|intros _].
  apply WriteThrough_bind.
  { apply WriteThrough_bind; [apply WriteThrough_fetchGuildMembersPage|].
    intros page. apply WriteThrough_fetchRemainingPages. }
  intros guildMembers.
  apply WriteThrough_bind; [apply WriteThrough_emit|intros _].
  apply WriteThrough_bind.
  { intros w. apply WriteThrough_settleEach. }
  intros syncResults. apply WriteThrough_bind.
  { destruct (Nat.ltb _ _); [apply WriteThrough_emit|apply WriteThrough_ret]. }
  intros _ w. unfold removeDeparted. apply WriteThrough_forEach.
  intros key. unfold removeIfDeparted.
  destruct (bool_decide _); [apply WriteThrough_ret|].
  apply WriteThrough_removeUserRoles.
Qed.

Lemma WriteThrough_initialSync fuel guildIds :
  WriteThrough (initialSync fuel guildIds).
Proof. apply WriteThrough_forEach, WriteThrough_syncGuild. Qed.

End WriteThrough.

(** ** The sink adapter: [syncUserRoles], [upsertUserRoles], [removeUserRoles] *)

Section SinkAdapter.
Context {E : Type} `{Collaborators E}.
Implicit Types (w : @World E) (g d : string) (r : list string).

Lemma app_cons_ne {A} (l rest : list A) (x : A) : l ≠ l ++ x :: rest.
Proof.
  intros Heq. apply (f_equal length) in Heq.
  rewrite length_app in Heq. simpl in Heq. lia.
Qed.

Lemma syncUserRoles_decide_insert (cache : JsMap) g d r :
  syncUserRoles_decide (<[cacheKey g d := r]> cache) g d r = None.
Proof.
  unfold syncUserRoles_decide. rewrite get_set_eq.
  by rewrite symmetricDifference_same.
Qed.

(** C2.  [syncUserRoles] sends an upsert of the observed roles to the sink
    exactly when the comparator of the specification reports a change: always
    when the key has no cache entry (also for an empty observed list), and,
    when it has one (also an empty one), exactly when some role is in one of
    the two lists and not in the other.  When no change is reported the call
    returns with the state untouched. *)
Theorem syncUserRoles_upserts_iff_changed w g d r :
  (hasChanged (rolesCache w !! cacheKey g d) r ↔
   ∃ error rest,
     trace (world_of (syncUserRoles g d r w)) =
     trace w ++ SinkUpsert g d r error :: rest) ∧
  (¬ hasChanged (rolesCache w !! cacheKey g d) r ↔
   syncUserRoles g d r w = Fulfilled tt w).
Proof.
  rewrite <-syncUserRoles_decide_unchanged, <-syncUserRoles_decide_changed.
  rewrite syncUserRoles_run, upsertUserRoles_run.
  destruct (syncUserRoles_decide_cases (rolesCache w) g d r) as [-> | ->].
  - split; [|done]. split; [done|].
    intros (error & rest & Htrace). by apply app_cons_ne in Htrace.
  - split.
    + split; [intros _|done]. cbn [world_of].
      destruct (sink_upsert (env w) g d r) as [e [message|]]; by eexists _, _.
    + split; [done|]. intros Heq. exfalso.
      injection Heq as Heq. apply (f_equal trace) in Heq.
      destruct (sink_upsert (env w) g d r) as [e [message|]];
        symmetry in Heq; by apply app_cons_ne in Heq.
Qed.

(** C3, as the code has it.  A sink failure is not surfaced: [syncUserRoles]
    and [removeUserRoles] are always fulfilled.  When the sink refuses the
    upsert or the delete, the call writes one line to the error console that
    names the member, the guild and the sink's message, leaves the cache as it
    was, and returns normally. *)
Theorem sink_errors_are_logged_not_raised w g d r :
  (∃ w', syncUserRoles g d r w = Fulfilled tt w') ∧
  (∃ w', removeUserRoles g d w = Fulfilled tt w') ∧
  (∀ e message,
     hasChanged (rolesCache w !! cacheKey g d) r →
     sink_upsert (env w) g d r = (e, Some message) →
     syncUserRoles g d r w =
     Fulfilled tt
       {| rolesCache := rolesCache w; env := e;
          trace := trace w ++ [SinkUpsert g d r (Some message);
                               ConsoleError (FailedUpsert d g message)] |}) ∧
  (∀ e message,
     sink_delete (env w) g d = (e, Some message) →
     removeUserRoles g d w =
     Fulfilled tt
       {| rolesCache := rolesCache w; env := e;
          trace := trace w ++ [SinkDelete g d (Some message);
                               ConsoleError (FailedRemove d g message)] |}).
Proof.
  split_and!.
  - rewrite syncUserRoles_run, upsertUserRoles_run.
    destruct (syncUserRoles_decide _ _ _ _); by eexists.
  - rewrite removeUserRoles_run. by eexists.
  - intros e message Hchanged%syncUserRoles_decide_changed Hsink.
    by rewrite syncUserRoles_run, Hchanged, upsertUserRoles_run, Hsink.
  - intros e message Hsink. by rewrite removeUserRoles_run, Hsink.
Qed.

(** C6.  Every cache mutation is write-through.  For [upsertUserRoles],
    [removeUserRoles], [syncUserRoles] and a whole [initialSync], the events
    of the run are write-through (each cache mutation comes directly after the
    sink call that confirmed it) and the cache changes by exactly the confirmed
    mutations.  For one call: the sink call is the first event; when the sink
    refuses, the cache is the one before the call; when it confirms, the
    cache entry is set to the observed roles, or removed, right after. *)
Theorem cache_is_written_through fuel guildIds w g d r :
  (WriteThrough (upsertUserRoles g d r) ∧
   WriteThrough (removeUserRoles g d) ∧
   WriteThrough (syncUserRoles g d r) ∧
   WriteThrough (initialSync fuel guildIds)) ∧
  (∃ w', upsertUserRoles g d r w = Fulfilled tt w' ∧
     env w' = (sink_upsert (env w) g d r).1 ∧
     match (sink_upsert (env w) g d r).2 with
     | Some message =>
         rolesCache w' = rolesCache w ∧
         trace w' = trace w ++ [SinkUpsert g d r (Some message);
                                ConsoleError (FailedUpsert d g message)]
     | None =>
         rolesCache w' = <[cacheKey g d := r]> (rolesCache w) ∧
         trace w' = trace w ++ [SinkUpsert g d r None;
                                CacheSet (cacheKey g d) r]
     end) ∧
  (∃ w', removeUserRoles g d w = Fulfilled tt w' ∧
     env w' = (sink_delete (env w) g d).1 ∧
     match (sink_delete (env w) g d).2 with
     | Some message =>
         rolesCache w' = rolesCache w ∧
         trace w' = trace w ++ [SinkDelete g d (Some message);
                                ConsoleError (FailedRemove d g message)]
     | None =>
         rolesCache w' = delete (cacheKey g d) (rolesCache w) ∧
         trace w' = trace w ++ [SinkDelete g d None;
                                CacheDelete (cacheKey g d);
                                ConsoleLog (Removed d g)]
     end).
Proof.
  split_and!.
  - apply WriteThrough_upsertUserRoles.
  - apply WriteThrough_removeUserRoles.
  - apply WriteThrough_syncUserRoles.
  - apply WriteThrough_initialSync.
  - rewrite upsertUserRoles_run. eexists. split; [done|].
    by destruct (sink_upsert (env w) g d r) as [e [message|]].
  - rewrite removeUserRoles_run. eexists. split; [done|].
    by destruct (sink_delete (env w) g d) as [e [message|]].
Qed.

(** C7.  Two calls of [syncUserRoles] in succession with the same observed
    roles: at most one upsert is written to the sink (confirmed by it).  When
    the first call leaves no refused upsert behind, the cache then holds the
    observed roles, the second call compares equal and does nothing at all,
    and at most one upsert was sent. *)
Theorem syncUserRoles_twice_one_write w g d r :
  ∃ w1 w2 evs1 evs2,
    syncUserRoles g d r w = Fulfilled tt w1 ∧
    syncUserRoles g d r w1 = Fulfilled tt w2 ∧
    trace w1 = trace w ++ evs1 ∧
    trace w2 = trace w1 ++ evs2 ∧
    length (upsertsConfirmed (evs1 ++ evs2)) ≤ 1 ∧
    (upsertsRefused evs1 = [] →
     evs2 = [] ∧ w2 = w1 ∧ length (upsertCalls (evs1 ++ evs2)) ≤ 1).
Proof.
  rewrite syncUserRoles_run.
  destruct (syncUserRoles_decide_cases (rolesCache w) g d r) as [Hdec|Hdec];
    rewrite Hdec.
  - exists w, w, [], []. rewrite syncUserRoles_run, Hdec, app_nil_r. simpl.
    split_and!; [done..|lia|]. intros _. split_and!; [done..|lia].
  - rewrite upsertUserRoles_run.
    destruct (sink_upsert (env w) g d r) as [e [message|]] eqn:Hsink.
    + destruct (sink_upsert e g d r) as [e' [message'|]] eqn:Hsink';
        (eexists _, _, _, _; split; [done|];
         rewrite syncUserRoles_run; cbn [rolesCache]; rewrite Hdec;
         rewrite upsertUserRoles_run; cbn [env]; rewrite Hsink';
         cbn [rolesCache trace];
         split; [done|]; split; [done|]; split; [done|];
         simpl; split; [lia|done]).
    + eexists _, _, _, []. split; [done|].
      rewrite syncUserRoles_run. cbn [rolesCache].
      rewrite syncUserRoles_decide_insert. cbn [trace].
      split_and!; [done|done|by rewrite app_nil_r|simpl; lia|].
      intros _. split_and!; [done..|simpl; lia].
Qed.

End SinkAdapter.

(** ** Stale keys *)

Lemma elem_of_List_filter {A} (f : A → bool) (l : list A) (x : A) :
  x ∈ List.filter f l ↔ x ∈ l ∧ f x = true.
Proof. by rewrite !list_elem_of_In, filter_In. Qed.

Lemma elem_of_List_map {A B} (f : A → B) (l : list A) (y : B) :
  y ∈ map f l ↔ ∃ x, f x = y ∧ x ∈ l.
Proof.
  rewrite list_elem_of_In, in_map_iff.
  by setoid_rewrite list_elem_of_In.
Qed.

Lemma omap_nil_iff {A B} (f : A → option B) (l : list A) :
  omap f l = [] ↔ ∀ x, x ∈ l → f x = None.
Proof.
  induction l as [|a l IH]; simpl.
  - split; [|done]. intros _ x Hx. by apply elem_of_nil in Hx.
  - destruct (f a) eqn:Hfa.
    + split; [done|]. intros Hall.
      specialize (Hall a (list_elem_of_here _ _)). congruence.
    + rewrite IH. split.
      * intros Hall x [->|Hx]%elem_of_cons; auto.
      * intros Hall x Hx. apply Hall. by right.
Qed.

Lemma elem_of_cachedKeys (cache : JsMap) (g key : string) :
  key ∈ cachedKeys cache g ↔
  is_Some (cache !! key) ∧ startsWith key (g +:+ ":") = true.
Proof.
  unfold cachedKeys. by rewrite elem_of_List_filter, elem_of_keys.
Qed.

(** The identifiers that count as present: the truthy identifiers of the
    fetched members. *)
Lemma elem_of_discordUserIds (ms : list APIGuildMember) (d : string) :
  Some d ∈ discordUserIds ms ↔
  truthy d = true ∧ ∃ m, m ∈ ms ∧ user_id m = Some d.
Proof.
  unfold discordUserIds.
  rewrite elem_of_list_to_set, elem_of_List_filter, elem_of_List_map.
  simpl. split.
  - intros [(m & Hid & Hm) Htruthy]. split; [done|]. by exists m.
  - intros [Htruthy (m & Hm & Hid)]. split; [|done]. by exists m.
Qed.

(** On a well-formed cache the stale identifiers of a guild are those of its
    cached members that were not fetched. *)
Lemma elem_of_staleIds (cache : JsMap) (g d : string)
    (ms : list APIGuildMember) :
  cache_wf cache →
  d ∈ staleIds cache g ms ↔
  is_Some (cache !! cacheKey g d) ∧ Some d ∉ discordUserIds ms.
Proof.
  intros Hwf. unfold staleIds. rewrite list_elem_of_omap. split.
  - intros (key & [Hkey Hpre]%elem_of_cachedKeys & Hd).
    destruct (Hwf key Hkey) as (g' & d' & -> & Hg' & Hd').
    apply startsWith_cacheKey_inv in Hpre as ->; [|done..].
    rewrite (keyDiscordId_cacheKey _ _ Hg' Hd') in Hd.
    case_bool_decide; [done|]. simpl in Hd. by simplify_eq.
  - intros [Hkey Hnot]. exists (cacheKey g d). split.
    + apply elem_of_cachedKeys. split; [done|].
      apply startsWith_cacheKey_self.
    + destruct (Hwf _ Hkey) as (g' & d' & Heq & Hg' & Hd').
      apply cacheKey_inj in Heq as [-> ->]; [|done..].
      rewrite (keyDiscordId_cacheKey _ _ Hg' Hd').
      by rewrite bool_decide_eq_false_2.
Qed.

(** A mirror that only sees deletes confirmed. *)
Lemma applyConfirmed_None (evs : list Event)
    (cache : JsMap) (key : string) :
  upsertsConfirmed evs = [] → cache !! key = None →
  applyConfirmed evs cache !! key = None.
Proof.
  revert cache. induction evs as [|ev evs IH]; intros cache Hup Hnone; [done|].
  rewrite applyConfirmed_cons. apply IH.
  - by destruct ev as [| |? ? ? [|]| | | | |].
  - destruct ev as [| |? ? ? [|]|? ? [|]| | | |]; cbn [confirm]; try done.
    apply get_delete_None. by right.
Qed.

Lemma applyConfirmed_deleted (evs : list Event)
    (cache : JsMap) (g d : string) :
  upsertsConfirmed evs = [] → (g, d) ∈ deletesConfirmed evs →
  applyConfirmed evs cache !! cacheKey g d = None.
Proof.
  revert cache. induction evs as [|ev evs IH]; intros cache Hup Hin.
  { by apply elem_of_nil in Hin. }
  assert (upsertsConfirmed evs = []) as Hup'.
  { by destruct ev as [| |? ? ? [|]| | | | |]. }
  rewrite applyConfirmed_cons.
  destruct ev as [| |? ? ? [|]|g' d' [|]| | | |]; try by apply IH.
  apply elem_of_cons in Hin as [[= -> ->]|Hin]; [|by apply IH].
  apply applyConfirmed_None; [done|]. cbn [confirm]. apply get_delete_eq.
Qed.

Lemma applyConfirmed_kept (evs : list Event)
    (cache : JsMap) (key : string) :
  upsertsConfirmed evs = [] →
  (∀ g d, (g, d) ∈ deletesConfirmed evs → key ≠ cacheKey g d) →
  applyConfirmed evs cache !! key = cache !! key.
Proof.
  revert cache. induction evs as [|ev evs IH]; intros cache Hup Hkey; [done|].
  assert (upsertsConfirmed evs = []) as Hup'.
  { by destruct ev as [| |? ? ? [|]| | | | |]. }
  rewrite applyConfirmed_cons.
  destruct ev as [| |? ? ? [|]|g' d' [|]| | | |];
    try (by rewrite IH; [|done|]; [done|..]).
  rewrite IH; [|done|]; cbn [confirm].
  - apply get_delete_ne. intros Heq. by eapply Hkey; [left|].
  - intros g d Hin. apply Hkey. by right.
Qed.

Section Prune.
Context {E : Type} `{Collaborators E}.
Implicit Types (w : @World E) (g d : string) (ms : list APIGuildMember).

Lemma bind_ret_l {A} (k : unit → @M E A) w : bind (ret tt) k w = k tt w.
Proof. done. Qed.

(** The loop over the cached keys calls [removeUserRoles] for the stale
    identifiers, in the order of the keys. *)
Lemma removeDeparted_staleIds w g ms :
  removeDeparted g ms w =
  forEach (staleIds (rolesCache w) g ms) (removeUserRoles g) w.
Proof.
  unfold removeDeparted, staleIds.
  generalize (cachedKeys (rolesCache w) g). intros keys. revert w.
  induction keys as [|key keys IH]; intros w; [done|].
  cbn [forEach omap list_omap]. unfold removeIfDeparted at 1.
  destruct (bool_decide _); [by rewrite bind_ret_l|].
  cbn [forEach]. unfold bind. rewrite removeUserRoles_run. apply IH.
Qed.

Lemma forEach_removeUserRoles g (ds : list string) w :
  ∃ w' evs,
    forEach ds (removeUserRoles g) w = Fulfilled tt w' ∧
    follows w w' evs ∧
    deleteCalls evs = map (pair g) ds ∧
    upsertCalls evs = [] ∧
    restCalls evs = [].
Proof.
  revert w. induction ds as [|d ds IH]; intros w.
  { exists w, []. split_and!; try done. apply follows_refl. }
  cbn [forEach]. unfold bind.
  destruct (WriteThrough_removeUserRoles g d w) as [evs1 Hevs1].
  assert (deleteCalls evs1 = [(g, d)] ∧ upsertCalls evs1 = [] ∧
          restCalls evs1 = []) as (Hdel & Hup & Hrest).
  { destruct Hevs1 as (Htrace & _). revert Htrace.
    rewrite removeUserRoles_run. cbn [world_of].
    destruct (sink_delete (env w) g d) as [e [message|]]; cbn [trace];
      by intros <-%app_inv_head. }
  revert Hevs1. rewrite removeUserRoles_run. cbn [world_of]. intros Hevs1.
  match goal with |- context [forEach ds _ ?w1] =>
    destruct (IH w1) as (w' & evs2 & -> & Hevs2 & Hdel2 & Hup2 & Hrest2) end.
  exists w', (evs1 ++ evs2). split_and!.
  - done.
  - by eapply follows_trans.
  - by rewrite deleteCalls_app, Hdel, Hdel2.
  - by rewrite upsertCalls_app, Hup, Hup2.
  - by rewrite restCalls_app, Hrest, Hrest2.
Qed.

End Prune.

(** ** Seeding the cache *)

Lemma cache_wf_insert (cache : JsMap) (g d : string)
    (r : list string) :
  colon_free g = true → colon_free d = true →
  cache_wf cache → cache_wf (<[cacheKey g d := r]> cache).
Proof.
  intros Hg Hd Hwf key. destruct (decide (cacheKey g d = key)) as [<-|Hne].
  - intros _. by exists g, d.
  - rewrite get_set_ne by done. apply Hwf.
Qed.

(** Every key of the seeded cache comes from a row with a truthy guild and a
    truthy member identifier. *)
Lemma seedCache_lookup (rows : list UserRoleRow) (key : string) :
  is_Some (seedCache rows !! key) →
  ∃ row, row ∈ rows ∧
    key = cacheKey (guild_snowflake row) (discord_id row) ∧
    truthy (guild_snowflake row) = true ∧ truthy (discord_id row) = true.
Proof.
  unfold seedCache.
  assert (∀ cache : JsMap,
    is_Some (foldl seedRow cache rows !! key) →
    is_Some (cache !! key) ∨
    ∃ row, row ∈ rows ∧
      key = cacheKey (guild_snowflake row) (discord_id row) ∧
      truthy (guild_snowflake row) = true ∧
      truthy (discord_id row) = true) as Hgen.
  { induction rows as [|row rows IH]; intros cache; [by left|].
    cbn [foldl]. intros [Hin|(row' & Hin & Hrow')]%IH.
    - unfold seedRow in Hin.
      destruct (truthy (guild_snowflake row) && truthy (discord_id row))
        eqn:Htruthy; [|by left].
      apply andb_true_iff in Htruthy as [Hg Hd].
      destruct (decide
        (cacheKey (guild_snowflake row) (discord_id row) = key)) as [<-|Hne].
      + right. exists row. split; [by left|done].
      + left. by rewrite get_set_ne in Hin.
    - right. exists row'. split; [by right|done]. }
  intros [Hin|Hrow]%Hgen; [|done].
  rewrite get_empty in Hin. by destruct Hin.
Qed.

Lemma seedCache_wf (rows : list UserRoleRow) :
  Forall row_wf rows → cache_wf (seedCache rows).
Proof.
  intros Hrows key (row & Hin & -> & _)%seedCache_lookup.
  rewrite Forall_forall in Hrows. destruct (Hrows row Hin) as [Hg Hd].
  by exists (guild_snowflake row), (discord_id row).
Qed.

Section Seeding.
Context {E : Type} `{Collaborators E}.

(** C9.  When the sink answers the select with rows (whose guild and member
    identifiers are snowflakes, hence without [":"]),
    [fetchAllSupabaseRoles] returns the cache seeded from them, and in that
    cache no member of a guild is stale against a member list whose
    identifiers are exactly those of the rows of that guild:
    [removeUserRoles] would be called for nobody. *)
Theorem seeded_cache_has_no_stale_member (w : @World E)
    (guildIds : list string) (e : E) (rows : list UserRoleRow)
    (g : string) (ms : list APIGuildMember) :
  sink_select (env w) guildIds = (e, inr rows) →
  Forall row_wf rows →
  map user_id ms ≡ₚ map Some (rowIds g rows) →
  ∃ cache w',
    fetchAllSupabaseRoles guildIds w = Fulfilled cache w' ∧
    cache = seedCache rows ∧
    staleIds cache g ms = [].
Proof.
  intros Hselect Hrows Hms. unfold fetchAllSupabaseRoles. rewrite Hselect.
  eexists _, _. split; [done|]. split; [done|].
  unfold staleIds. apply omap_nil_iff.
  intros key [Hkey Hpre]%elem_of_cachedKeys.
  destruct (seedCache_lookup rows key Hkey) as (row & Hin & -> & _ & Hd).
  rewrite Forall_forall in Hrows. destruct (Hrows row Hin) as [Hcg Hcd].
  apply startsWith_cacheKey_inv in Hpre as ->; [|done..].
  rewrite (keyDiscordId_cacheKey _ _ Hcg Hcd).
  rewrite bool_decide_eq_true_2; [done|].
  unfold discordUserIds.
  rewrite elem_of_list_to_set, elem_of_List_filter. split; [|done].
  rewrite Hms, elem_of_List_map. exists (discord_id row). split; [done|].
  unfold rowIds. rewrite elem_of_List_map. exists row. split; [done|].
  rewrite elem_of_List_filter. split; [done|]. apply String.eqb_refl.
Qed.

End Seeding.

Section Pruning.
Context {E : Type} `{Collaborators E}.
Implicit Types (w : @World E) (g d : string) (ms : list APIGuildMember).

Lemma upsertsConfirmed_nil (evs : list Event) :
  upsertCalls evs = [] → upsertsConfirmed evs = [].
Proof.
  unfold upsertCalls, upsertsConfirmed. rewrite !omap_nil_iff.
  intros Hall ev Hev. specialize (Hall ev Hev).
  by destruct ev as [| |? ? ? [|]| | | | |].
Qed.

(** C1, as the code has it.  Run after the members of guild [g] were synced,
    on a cache whose keys are built from snowflakes.
    - [removeUserRoles] is called, and a delete sent to the sink, for exactly
      the cached members of [g] whose identifier is not among the fetched
      ones; no delete is sent for another guild.
    - A key is removed from the cache when the sink confirms its delete; every
      other key, in particular a stale key whose delete the sink refused and
      every key of a fetched member, keeps its entry.
    - When the sink confirms every delete, only fetched members of [g]
      remain in the cache; with no member fetched, none remains. *)
Theorem removeDeparted_prunes_confirmed_stale_keys w g ms :
  cache_wf (rolesCache w) →
  ∃ w' evs,
    removeDeparted g ms w = Fulfilled tt w' ∧
    trace w' = trace w ++ evs ∧
    (∀ g' d, (g', d) ∈ deleteCalls evs ↔
       g' = g ∧ is_Some (rolesCache w !! cacheKey g d) ∧
       Some d ∉ discordUserIds ms) ∧
    (∀ d, (g, d) ∈ deletesConfirmed evs →
       rolesCache w' !! cacheKey g d = None) ∧
    (∀ key, (∀ d, (g, d) ∈ deletesConfirmed evs → key ≠ cacheKey g d) →
       rolesCache w' !! key = rolesCache w !! key) ∧
    (deletesConfirmed evs = deleteCalls evs →
     ∀ d, is_Some (rolesCache w' !! cacheKey g d) →
       Some d ∈ discordUserIds ms).
Proof.
  intros Hwf. rewrite removeDeparted_staleIds.
  destruct (forEach_removeUserRoles g (staleIds (rolesCache w) g ms) w)
    as (w' & evs & Hrun & (Htrace & _ & Hcache) & Hdel & Hup & _).
  apply upsertsConfirmed_nil in Hup.
  assert (∀ g' d, (g', d) ∈ deleteCalls evs ↔
            g' = g ∧ is_Some (rolesCache w !! cacheKey g d) ∧
            Some d ∉ discordUserIds ms) as Hcalls.
  { intros g' d. rewrite Hdel, elem_of_List_map. split.
    - intros (d' & [= <- <-] & Hstale). split; [done|].
      by apply elem_of_staleIds.
    - intros (-> & Hstale). exists d. split; [done|].
      by apply elem_of_staleIds. }
  assert (∀ key, (∀ d, (g, d) ∈ deletesConfirmed evs → key ≠ cacheKey g d) →
            rolesCache w' !! key = rolesCache w !! key) as Hkept.
  { intros key Hkey. rewrite Hcache. apply applyConfirmed_kept; [done|].
    intros g' d Hin.
    pose proof (deletesConfirmed_subseteq evs _ Hin) as Hcall.
    apply Hcalls in Hcall as [-> _]. by apply Hkey. }
  exists w', evs. split_and!; try done.
  - intros d Hin. rewrite Hcache. by apply applyConfirmed_deleted.
  - intros Hall d Hsome.
    destruct (decide (Some d ∈ discordUserIds ms)) as [|Hnot]; [done|].
    exfalso.
    destruct (decide ((g, d) ∈ deletesConfirmed evs)) as [Hin|Hnin].
    { rewrite Hcache, applyConfirmed_deleted in Hsome by done.
      by destruct Hsome. }
    rewrite Hkept in Hsome.
    + apply Hnin. rewrite Hall. by apply Hcalls.
    + intros d' Hin Heq. unfold cacheKey in Heq.
      apply append_inj_l, (append_inj_l ":") in Heq. by subst d'.
Qed.

End Pruning.

(** ** One guild: syncing, then pruning *)

Section Guild.
Context {E : Type} `{Collaborators E}.
Implicit Types (w : @World E) (g d : string) (ms : list APIGuildMember).

Lemma bind_emit {A} (ev : Event) (k : unit → @M E A) w :
  bind (emit ev) k w =
  k tt {| rolesCache := rolesCache w; env := env w;
          trace := trace w ++ [ev] |}.
Proof. done. Qed.

Lemma bind_Fulfilled {A B} (m : @M E A) (k : A → @M E B) w a w' :
  m w = Fulfilled a w' → bind m k w = k a w'.
Proof. unfold bind. by intros ->. Qed.

Lemma bind_Rejected {A B} (m : @M E A) (k : A → @M E B) w reason w' :
  m w = Rejected reason w' → bind m k w = Rejected reason w'.
Proof. unfold bind. by intros ->. Qed.

Lemma forEach_app {A} (l1 l2 : list A) (f : A → @M E unit) w :
  forEach (l1 ++ l2) f w = bind (forEach l1 f) (λ _, forEach l2 f) w.
Proof.
  revert w. induction l1 as [|x l1 IH]; intros w; [done|].
  cbn [app forEach]. unfold bind.
  destruct (f x w) as [[] w'|reason w'|w']; [apply IH|done..].
Qed.

(** The upserts in flight all settle, each as fulfilled. *)
Lemma settleEach_run (us : list Upsert) w :
  ∃ w' evs rs,
    settleEach us w = Fulfilled rs w' ∧
    follows w w' evs ∧
    upsertCalls evs = us ∧
    deleteCalls evs = [] ∧
    List.filter is_rejected rs = [].
Proof.
  revert w. induction us as [|[[g d] r] us IH]; intros w.
  { exists w, [], []. split_and!; try done. apply follows_refl. }
  cbn [settleEach]. unfold bind, settle, runUpsert.
  destruct (WriteThrough_upsertUserRoles g d r w) as [evs1 Hevs1].
  assert (upsertCalls evs1 = [(g, d, r)] ∧ deleteCalls evs1 = [])
    as (Hup & Hdel).
  { destruct Hevs1 as (Htrace & _). revert Htrace.
    rewrite upsertUserRoles_run. cbn [world_of].
    destruct (sink_upsert (env w) g d r) as [e [message|]]; cbn [trace];
      by intros <-%app_inv_head. }
  revert Hevs1. rewrite upsertUserRoles_run. cbn [world_of]. intros Hevs1.
  match goal with |- context [settleEach us ?w1] =>
    destruct (IH w1) as (w' & evs2 & rs & -> & Hevs2 & Hup2 & Hdel2 & Hrej)
  end.
  exists w', (evs1 ++ evs2), (fulfilled :: rs). split_and!.
  - done.
  - by eapply follows_trans.
  - by rewrite upsertCalls_app, Hup, Hup2.
  - by rewrite deleteCalls_app, Hdel, Hdel2.
  - done.
Qed.

(** C8.  Once the members of a guild are fetched, the rest of its
    reconciliation always completes, whatever the sink answers.
    - The upserts sent during the sync phase are, up to their order, the ones
      decided by comparing every fetched member that has an identifier with
      the cache at the start of the phase: a member whose roles changed gets
      its upsert whether or not the upsert of another member is refused.
    - The cache after the phase reflects exactly the confirmed upserts.
    - No delete is sent during the sync phase and no upsert during the prune
      phase; the prune phase runs on the cache as the settled upserts left
      it, and calls [removeUserRoles] for every stale member of that cache. *)
Theorem member_sync_failures_are_isolated fuel g w ms w1 :
  fetchAllGuildMembers fuel g (world_of (emit (ConsoleLog (SyncingGuild g)) w))
    = Fulfilled ms w1 →
  ∃ w2 w3 evsSync evsPrune,
    syncGuild fuel g w = Fulfilled tt w3 ∧
    trace w2 =
      trace w1 ++ ConsoleLog (FoundMembers (length ms) g) :: evsSync ∧
    trace w3 = trace w2 ++ evsPrune ∧
    rolesCache w2 = applyConfirmed evsSync (rolesCache w1) ∧
    upsertCalls evsSync ≡ₚ omap (startSync (rolesCache w1) g) (withUserId ms) ∧
    (∀ m d, m ∈ ms → user_id m = Some d → truthy d = true →
       hasChanged (rolesCache w1 !! cacheKey g d) (roles m) →
       (g, d, roles m) ∈ upsertCalls evsSync) ∧
    deleteCalls evsSync = [] ∧
    upsertCalls evsPrune = [] ∧
    deleteCalls evsPrune = map (pair g) (staleIds (rolesCache w2) g ms).
Proof.
  cbn [emit world_of]. intros Hfetch.
  unfold syncGuild. rewrite bind_emit, (bind_Fulfilled _ _ _ _ _ Hfetch).
  rewrite bind_emit.
  set (pending := omap (startSync (rolesCache w1) g) (withUserId ms)).
  match goal with |- context [bind (syncAllMembers g ms) _ ?w1'] =>
    destruct (settleEach_run (settle_order pending) w1')
      as (w2 & evsSync & rs & Hsync & (Htr2 & _ & Hc2) & Hup & Hdel & Hrej);
    assert (syncAllMembers g ms w1' = Fulfilled rs w2) as Hsync'
      by exact Hsync
  end.
  rewrite (bind_Fulfilled _ _ _ _ _ Hsync'). cbv zeta. rewrite Hrej.
  cbn [length Nat.ltb Nat.leb]. rewrite bind_ret_l.
  rewrite removeDeparted_staleIds.
  destruct (forEach_removeUserRoles g (staleIds (rolesCache w2) g ms) w2)
    as (w3 & evsPrune & Hprune & (Htr3 & _) & Hdel3 & Hup3 & _).
  cbn [rolesCache trace] in Htr2, Hc2.
  assert (upsertCalls evsSync ≡ₚ pending) as Hperm.
  { rewrite Hup. apply settle_order_perm. }
  exists w2, w3, evsSync, evsPrune. split_and!; try done.
  - by rewrite Htr2, <-app_assoc.
  - intros m d Hm Hid Htruthy Hchanged. rewrite Hperm.
    apply list_elem_of_omap. exists m. split.
    + apply elem_of_List_filter. split; [done|]. by rewrite Hid.
    + unfold startSync. unfold user_id in Hid.
      destruct (user m) as [u|]; [|done]. injection Hid as <-.
      by apply syncUserRoles_decide_changed.
Qed.

(** C4, as the code has it.  [initialSync] has no handler around the page
    requests.  When the bulk fetch of a guild is rejected, [initialSync] is
    rejected with the same reason in the very state the fetch left: the guild
    is neither synced nor pruned, and no later guild is fetched, synced or
    pruned.  The guilds before it were reconciled. *)
Theorem fetch_error_aborts_initialSync fuel gs1 g gs2 w w1 w2 reason :
  initialSync fuel gs1 w = Fulfilled tt w1 →
  fetchAllGuildMembers fuel g
    (world_of (emit (ConsoleLog (SyncingGuild g)) w1)) = Rejected reason w2 →
  initialSync fuel (gs1 ++ g :: gs2) w = Rejected reason w2.
Proof.
  cbn [emit world_of]. intros Hbefore Hfetch. unfold initialSync.
  rewrite forEach_app, (bind_Fulfilled _ _ _ _ _ Hbefore).
  cbn [forEach]. unfold bind at 1. unfold syncGuild.
  by rewrite bind_emit, (bind_Rejected _ _ _ _ _ Hfetch).
Qed.

End Guild.

(** ** Pagination *)

Section Pagination.
Context {E : Type} `{Collaborators E}.
Implicit Types (w : @World E) (g : string).
Implicit Types (page acc : list APIGuildMember).

Lemma fetchGuildMembersPage_run g (cursor : option string) w :
  fetchGuildMembersPage g cursor w =
  let query := pageQuery (if truthy_opt cursor then cursor else None) in
  let w' e := {| rolesCache := rolesCache w; env := e;
                 trace := trace w ++ [RestGet g query] |} in
  match rest_get (env w) g query with
  | (e, inl reason) => Rejected reason (w' e)
  | (e, inr page) => Fulfilled page (w' e)
  end.
Proof.
  unfold fetchGuildMembersPage, pageQuery.
  by destruct (rest_get _ _ _) as [e [reason|page]].
Qed.

Lemma fetchRemainingPages_short fuel g acc page :
  Nat.eqb (length page) PAGE_LIMIT = false →
  fetchRemainingPages fuel g acc page = ret acc.
Proof. intros Hlen. destruct fuel; cbn [fetchRemainingPages]; by rewrite Hlen. Qed.

Lemma fetchRemainingPages_full fuel g acc page lastMember :
  Nat.eqb (length page) PAGE_LIMIT = true →
  last acc = Some lastMember →
  fetchRemainingPages (S fuel) g acc page =
  bind (fetchGuildMembersPage g (user_id lastMember))
    (λ page', fetchRemainingPages fuel g (acc ++ page') page').
Proof. intros Hlen Hlast. cbn [fetchRemainingPages]. by rewrite Hlen, Hlast. Qed.

Lemma full_page_last page :
  length page = PAGE_LIMIT → ∃ lastMember, last page = Some lastMember.
Proof.
  intros Hlen. destruct (last page) as [m|] eqn:Hlast; [by exists m|].
  apply last_None in Hlast as ->. by unfold PAGE_LIMIT in Hlen.
Qed.

Lemma last_app_full acc page :
  length page = PAGE_LIMIT → last (acc ++ page) = last page.
Proof.
  intros [m Hm]%full_page_last. rewrite last_app. by rewrite Hm.
Qed.

Lemma nextCursor_app_full acc page :
  length page = PAGE_LIMIT → nextCursor (acc ++ page) = nextCursor page.
Proof. intros Hlen. unfold nextCursor. by rewrite last_app_full. Qed.

Lemma nextCursor_last acc lastMember :
  last acc = Some lastMember →
  (if truthy_opt (user_id lastMember) then user_id lastMember else None) =
  nextCursor acc.
Proof. intros Hlast. unfold nextCursor. by rewrite Hlast. Qed.

(** The loop, entered with a full page, follows the pager of the
    specification from the cursor of that page on. *)
Lemma fetchRemainingPages_pager g e cursor pages calls e' :
  pager g e cursor pages calls e' →
  ∀ fuel w acc page,
    length pages ≤ fuel → env w = e →
    length page = PAGE_LIMIT → last acc = last page →
    nextCursor page = cursor →
    fetchRemainingPages fuel g acc page w =
    Fulfilled (acc ++ concat pages)
      {| rolesCache := rolesCache w; env := e';
         trace := trace w ++ map (RestGet g) calls |}.
Proof.
  induction 1 as [e cursor e' page' Hget Hshort
                 |e cursor e1 page' pages calls e' Hget Hfull _ IH];
    intros fuel w acc page Hfuel Henv Hlen Hlast Hcursor;
    (destruct fuel as [|fuel]; [simpl in Hfuel; lia|]);
    destruct (full_page_last page Hlen) as [m Hm];
    rewrite Hm in Hlast;
    (rewrite (fetchRemainingPages_full _ _ _ _ m);
       [|by apply Nat.eqb_eq|done]);
    unfold bind; rewrite fetchGuildMembersPage_run; cbv zeta;
    rewrite (nextCursor_last _ _ Hlast);
    assert (nextCursor acc = cursor) as ->
      by (unfold nextCursor in *; rewrite Hlast; by rewrite Hm in Hcursor);
    rewrite Henv, Hget.
  - rewrite fetchRemainingPages_short by (apply Nat.eqb_neq; lia).
    unfold ret. simpl. by rewrite app_nil_r.
  - rewrite (IH fuel _ (acc ++ page') page').
    + cbn [rolesCache trace concat map]. by rewrite <-!app_assoc.
    + simpl in Hfuel. lia.
    + done.
    + done.
    + by apply last_app_full.
    + done.
Qed.

(** C5.  When the pages received and the requests made are those of the
    pager of the specification (first request without cursor, then the cursor
    of the last item of the page before, stop at the first page with fewer
    than [PAGE_LIMIT = 1000] items), the fetch of the code makes exactly
    those requests, one for each page, and returns the pages appended in
    order. *)
Theorem fetchAllGuildMembers_follows_pager fuel g w pages calls e' :
  pager g (env w) None pages calls e' →
  length pages ≤ S fuel →
  fetchAllGuildMembers fuel g w =
  Fulfilled (concat pages)
    {| rolesCache := rolesCache w; env := e';
       trace := trace w ++ map (RestGet g) calls |} ∧
  length calls = length pages.
Proof.
  intros Hpager Hfuel. split.
  - unfold fetchAllGuildMembers, bind. rewrite fetchGuildMembersPage_run.
    cbv zeta. cbn [truthy_opt].
    inversion Hpager as [e cursor e2 page Hget Hshort
                        |e cursor e1 page pages' calls' e2 Hget Hfull Hrest];
      subst; rewrite Hget.
    + rewrite fetchRemainingPages_short by (apply Nat.eqb_neq; lia).
      unfold ret. simpl. by rewrite app_nil_r.
    + rewrite (fetchRemainingPages_pager _ _ _ _ _ _ Hrest); try done.
      * cbn [rolesCache trace concat map]. by rewrite <-!app_assoc.
      * simpl in Hfuel. lia.
  - clear Hfuel. induction Hpager; simpl; [done|by f_equal].
Qed.

(** The loop settles when every full page ends with a member that has an
    identifier and the cursor of a full page leaves less to fetch. *)
Lemma fetchRemainingPages_settles g (remaining : E → option string → nat) :
  (∀ e c e' page,
     rest_get e g (pageQuery c) = (e', inr page) →
     length page = PAGE_LIMIT →
     ∃ m d, last page = Some m ∧ user_id m = Some d ∧ truthy d = true) →
  (∀ e c e' page d,
     rest_get e g (pageQuery c) = (e', inr page) →
     length page = PAGE_LIMIT → nextCursor page = Some d →
     remaining e' (Some d) < remaining e c) →
  ∀ fuel w acc page,
    (length page = PAGE_LIMIT → remaining (env w) (nextCursor acc) < fuel) →
    settles (fetchRemainingPages fuel g acc page w).
Proof.
  intros Hid Hprogress. induction fuel as [|fuel IH]; intros w acc page Hfuel;
    destruct (Nat.eqb (length page) PAGE_LIMIT) eqn:Hlen;
    try (by rewrite fetchRemainingPages_short).
  - apply Nat.eqb_eq, Hfuel in Hlen. lia.
  - cbn [fetchRemainingPages]. rewrite Hlen.
    destruct (last acc) as [m|] eqn:Hlast; [|done].
    unfold bind. rewrite fetchGuildMembersPage_run. cbv zeta.
    rewrite (nextCursor_last _ _ Hlast).
    destruct (rest_get _ _ _) as [e' [reason|page']] eqn:Hget; [done|].
    apply IH. cbn [env]. intros Hlen'.
    destruct (Hid _ _ _ _ Hget Hlen') as (m' & d & Hm' & Hd & Htruthy).
    assert (nextCursor page' = Some d) as Hnext.
    { unfold nextCursor. by rewrite Hm', Hd; simpl; rewrite Htruthy. }
    rewrite nextCursor_app_full, Hnext by done.
    apply Nat.eqb_eq, Hfuel in Hlen.
    pose proof (Hprogress _ _ _ _ _ Hget Hlen' Hnext). lia.
Qed.

(** The loop never ends when the request without cursor is answered, without
    a change of the collaborator, by a full page that yields no cursor. *)
Lemma fetchRemainingPages_restarts g e page :
  rest_get e g (pageQuery None) = (e, inr page) →
  length page = PAGE_LIMIT → nextCursor page = None →
  ∀ fuel w acc,
    env w = e → last acc = last page →
    fetchRemainingPages fuel g acc page w =
    OutOfFuel
      {| rolesCache := rolesCache w; env := e;
         trace := trace w ++ replicate fuel (RestGet g (pageQuery None)) |}.
Proof.
  intros Hget Hlen Hnone. induction fuel as [|fuel IH]; intros w acc Henv Hlast.
  - cbn [fetchRemainingPages]. rewrite (proj2 (Nat.eqb_eq _ _) Hlen).
    destruct w; simpl in *. by rewrite app_nil_r, Henv.
  - destruct (full_page_last page Hlen) as [m Hm]. rewrite Hm in Hlast.
    rewrite (fetchRemainingPages_full _ _ _ _ m);
      [|by apply Nat.eqb_eq|done].
    unfold bind. rewrite fetchGuildMembersPage_run. cbv zeta.
    rewrite (nextCursor_last _ _ Hlast).
    assert (nextCursor acc = None) as ->
      by (unfold nextCursor in *; rewrite Hlast; by rewrite Hm in Hnone).
    rewrite Henv, Hget, IH; [|done|by apply last_app_full].
    cbn [rolesCache trace replicate]. by rewrite <-app_assoc.
Qed.

(** C10.  The pagination of a guild settles (with the members, or with the
    error of a page request) when every full page ends with a member that has
    an identifier and the cursor of a full page leaves strictly less to fetch,
    so that a short page is reached.  It need not settle otherwise: when the
    last member of a full first page has no identifier, the next request is
    sent without cursor again, and against a collaborator that answers it the
    same way every request is the first request and the loop runs for ever. *)
Theorem pagination_settles_when_cursor_advances g :
  (∀ remaining : E → option string → nat,
     (∀ e c e' page,
        rest_get e g (pageQuery c) = (e', inr page) →
        length page = PAGE_LIMIT →
        ∃ m d, last page = Some m ∧ user_id m = Some d ∧ truthy d = true) →
     (∀ e c e' page d,
        rest_get e g (pageQuery c) = (e', inr page) →
        length page = PAGE_LIMIT → nextCursor page = Some d →
        remaining e' (Some d) < remaining e c) →
     ∀ w, ∃ fuel, settles (fetchAllGuildMembers fuel g w)) ∧
  (∀ e page,
     rest_get e g (pageQuery None) = (e, inr page) →
     length page = PAGE_LIMIT → nextCursor page = None →
     ∀ fuel w, env w = e →
       fetchAllGuildMembers fuel g w =
       OutOfFuel
         {| rolesCache := rolesCache w; env := e;
            trace := trace w ++
                     replicate (S fuel) (RestGet g (pageQuery None)) |}).
Proof.
  split.
  - intros remaining Hid Hprogress w.
    destruct (rest_get (env w) g (pageQuery None)) as [e' answer] eqn:Hget.
    exists (S (remaining e' (match answer with
                             | inr page => nextCursor page
                             | inl _ => None
                             end))).
    unfold fetchAllGuildMembers, bind. rewrite fetchGuildMembersPage_run.
    cbv zeta. cbn [truthy_opt]. rewrite Hget.
    destruct answer as [reason|page]; [done|].
    apply (fetchRemainingPages_settles g remaining Hid Hprogress).
    cbn [env]. lia.
  - intros e page Hget Hlen Hnone fuel w Henv.
    unfold fetchAllGuildMembers, bind. rewrite fetchGuildMembersPage_run.
    cbv zeta. cbn [truthy_opt]. rewrite Henv, Hget.
    rewrite (fetchRemainingPages_restarts g e page Hget Hlen Hnone);
      [|done..].
    cbn [rolesCache trace replicate]. by rewrite <-app_assoc.
Qed.

End Pagination.

(** ** The statements at concrete inputs *)

(** The pruning example of the specification: with "g:1", "g:2", "g:3" cached
    and members "1" and "3" fetched, exactly "g:2" is deleted. *)
Example prune_1_2_3 :
  let w := mockWorld (seedCache rows123) [] [] in
  let w' := world_of (removeDeparted "g" [member "1" ["r"]; member "3" ["r"]] w) in
  deleteCalls (trace w') = [("g", "2")] ∧
  rolesCache w' !! cacheKey "g" "1" = Some ["r"] ∧
  rolesCache w' !! cacheKey "g" "2" = None ∧
  rolesCache w' !! cacheKey "g" "3" = Some ["r"].
Proof. split_and!; vm_compute; reflexivity. Qed.

(** A guild without members prunes all its cached members when the sink
    confirms the deletes. *)
Example prune_empty_guild :
  let w := mockWorld (seedCache rows123) [inr []] [] in
  let w' := world_of (syncGuild 0 "g" w) in
  is_fulfilled (syncGuild 0 "g" w) = true ∧
  deletesConfirmed (trace w') = [("g", "1"); ("g", "2"); ("g", "3")] ∧
  rolesCache w' = ∅.
Proof. split_and!; vm_compute; reflexivity. Qed.

(** C9, the statement refuted.  One row of guild "g" is stored, for a member
    whose identifier holds [":"], and the member list is that member alone.
    The stale list is not empty: the identifier read back from the key
    "g:1:2" is "1", which is not in the list, and a delete is sent for it. *)
Lemma seeded_colon_member_is_stale :
  let rows := [row "g" "1:2" ["r"]] in
  let ms := [member "1:2" ["r"]] in
  let w := mockWorld (seedCache rows) [] [] in
  map user_id ms = map Some (rowIds "g" rows) ∧
  keys (seedCache rows) = ["g:1:2"] ∧
  staleIds (seedCache rows) "g" ms = ["1"] ∧
  deleteCalls (trace (world_of (removeDeparted "g" ms w))) = [("g", "1")].
Proof. split_and!; vm_compute; reflexivity. Qed.

(** C1, the statement refuted.  The guild has no member any more and the sink
    refuses the delete of member "2": the key "g:2" is stale, a delete is sent
    for it, and it is still cached after the reconciliation. *)
Lemma refused_delete_keeps_stale_key :
  let w := mockWorld (seedCache rows123) [inr []] ["2"] in
  let w' := world_of (syncGuild 0 "g" w) in
  is_fulfilled (syncGuild 0 "g" w) = true ∧
  rolesCache w !! cacheKey "g" "2" = Some [] ∧
  trace w' =
    [ConsoleLog (SyncingGuild "g"); RestGet "g" (pageQuery None);
     ConsoleLog (FoundMembers 0 "g");
     SinkDelete "g" "1" None; CacheDelete (cacheKey "g" "1");
     ConsoleLog (Removed "1" "g");
     SinkDelete "g" "2" (Some "refused");
     ConsoleError (FailedRemove "2" "g" "refused");
     SinkDelete "g" "3" None; CacheDelete (cacheKey "g" "3");
     ConsoleLog (Removed "3" "g")] ∧
  rolesCache w' !! cacheKey "g" "2" = Some [].
Proof. split_and!; vm_compute; reflexivity. Qed.

Lemma removeDeparted_prunes_witness :
  let w := mockWorld (seedCache rows123) [] [] in
  let ms := [member "1" ["r"]; member "3" ["r"]] in
  cache_wf (rolesCache w) ∧
  ∃ w' evs,
    removeDeparted "g" ms w = Fulfilled tt w' ∧
    trace w' = trace w ++ evs ∧
    ("g", "2") ∈ deleteCalls evs ∧
    (("g", "1") ∉ deleteCalls evs) ∧
    (("g", "3") ∉ deleteCalls evs).
Proof.
  intros w ms.
  assert (cache_wf (rolesCache w)) as Hwf.
  { apply seedCache_wf. by repeat constructor. }
  split; [done|].
  destruct (removeDeparted_prunes_confirmed_stale_keys w "g" ms Hwf)
    as (w' & evs & Hrun & Htrace & Hcalls & _).
  exists w', evs. split_and!; [done|done|..].
  - apply Hcalls. split_and!; [done|by exists []|].
    apply (bool_decide_unpack _). vm_compute. exact I.
  - intros [_ [_ Hn]]%Hcalls. apply Hn.
    apply (bool_decide_unpack _). vm_compute. exact I.
  - intros [_ [_ Hn]]%Hcalls. apply Hn.
    apply (bool_decide_unpack _). vm_compute. exact I.
Defined.

(** C3, the statement refuted.  The sink refuses the upsert and the delete of
    member "1"; both calls are fulfilled all the same. *)
Lemma refused_mutation_is_fulfilled :
  let w := mockWorld ∅ [] ["1"] in
  (sink_upsert (env w) "g" "1" ["r"]).2 = Some "refused" ∧
  is_fulfilled (syncUserRoles "g" "1" ["r"] w) = true ∧
  (sink_delete (env w) "g" "1").2 = Some "refused" ∧
  is_fulfilled (removeUserRoles "g" "1" w) = true.
Proof. split_and!; vm_compute; reflexivity. Qed.

Lemma sink_errors_are_logged_witness :
  let w := mockWorld ∅ [] ["1"] in
  hasChanged (rolesCache w !! cacheKey "g" "1") ["r"] ∧
  sink_upsert (env w) "g" "1" ["r"] = (env w, Some "refused") ∧
  sink_delete (env w) "g" "1" = (env w, Some "refused") ∧
  syncUserRoles "g" "1" ["r"] w =
    Fulfilled tt
      {| rolesCache := ∅; env := env w;
         trace := [SinkUpsert "g" "1" ["r"] (Some "refused");
                   ConsoleError (FailedUpsert "1" "g" "refused")] |} ∧
  removeUserRoles "g" "1" w =
    Fulfilled tt
      {| rolesCache := ∅; env := env w;
         trace := [SinkDelete "g" "1" (Some "refused");
                   ConsoleError (FailedRemove "1" "g" "refused")] |}.
Proof.
  intros w.
  destruct (sink_errors_are_logged_not_raised w "g" "1" ["r"])
    as (_ & _ & Hupsert & Hdelete).
  split_and!.
  - exact I.
  - reflexivity.
  - reflexivity.
  - apply (Hupsert (env w) "refused"); [exact I|reflexivity].
  - apply (Hdelete (env w) "refused"). reflexivity.
Defined.

Lemma syncUserRoles_twice_witness :
  let w := mockWorld ∅ [] [] in
  ∃ w1,
    syncUserRoles "g" "1" ["r"] w = Fulfilled tt w1 ∧
    upsertsRefused (trace w1) = [] ∧
    syncUserRoles "g" "1" ["r"] w1 = Fulfilled tt w1.
Proof.
  intros w.
  destruct (syncUserRoles_twice_one_write w "g" "1" ["r"])
    as (w1 & w2 & evs1 & evs2 & Hrun1 & Hrun2 & Htr1 & _ & _ & Hsame).
  assert (upsertsRefused evs1 = []) as Hnone.
  { revert Htr1. vm_compute in Hrun1. injection Hrun1 as <-.
    change (trace w) with (@nil Event). simpl. by intros <-. }
  exists w1. split; [done|]. split.
  - by rewrite Htr1.
  - destruct (Hsame Hnone) as (_ & <- & _). done.
Defined.

(** C4, the statement refuted.  The page request of guild "g1" fails:
    [initialSync] is rejected, and guild "g2" is never requested; the page
    prepared for it is still in the script. *)
Lemma fetch_error_stops_later_guilds :
  let w := mockWorld ∅ [inl "boom"; inr [member "5" ["r"]]] [] in
  initialSync 1 ["g1"; "g2"] w =
  Rejected "boom"
    {| rolesCache := ∅;
       env := {| script := [inr [member "5" ["r"]]]; refused := [];
                 table := [] |};
       trace := [ConsoleLog (SyncingGuild "g1");
                 RestGet "g1" (pageQuery None)] |}.
Proof. vm_compute. reflexivity. Qed.

Lemma fetch_error_aborts_witness :
  let w := mockWorld ∅ [inr [member "4" ["r"]]; inl "boom";
                        inr [member "5" ["r"]]] [] in
  ∃ w1 w2,
    initialSync 1 ["g0"] w = Fulfilled tt w1 ∧
    fetchAllGuildMembers 1 "g1"
      (world_of (emit (ConsoleLog (SyncingGuild "g1")) w1))
      = Rejected "boom" w2 ∧
    initialSync 1 (["g0"] ++ "g1" :: ["g2"]) w = Rejected "boom" w2 ∧
    restCalls (trace w2) = [("g0", pageQuery None); ("g1", pageQuery None)].
Proof.
  intros w. eexists _, _.
  split; [vm_compute; reflexivity|]. split; [vm_compute; reflexivity|].
  split; [|vm_compute; reflexivity].
  eapply fetch_error_aborts_initialSync; vm_compute; reflexivity.
Defined.

(** The pagination example of the specification: pages of 1000, 1000 and 37
    members take three requests and give 2037 members; a short first page
    takes one request. *)
Lemma fetchAllGuildMembers_1000_1000_37 :
  let w := mockWorld ∅ [inr (fullPage (member "1000" []));
                        inr (fullPage (member "2000" []));
                        inr shortPage] [] in
  let w0 := mockWorld ∅ [inr shortPage] [] in
  (∃ ms w',
     fetchAllGuildMembers 2 "g" w = Fulfilled ms w' ∧
     length ms = 2037 ∧
     restCalls (trace w') =
       [("g", pageQuery None); ("g", pageQuery (Some "1000"));
        ("g", pageQuery (Some "2000"))]) ∧
  (∃ ms w',
     fetchAllGuildMembers 0 "g" w0 = Fulfilled ms w' ∧
     length ms = 37 ∧
     restCalls (trace w') = [("g", pageQuery None)]).
Proof.
  intros w w0. split.
  - destruct (fetchAllGuildMembers_follows_pager 2 "g" w
                [fullPage (member "1000" []); fullPage (member "2000" []);
                 shortPage]
                [pageQuery None; pageQuery (Some "1000");
                 pageQuery (Some "2000")]
                {| script := []; refused := []; table := [] |}) as [Hrun _].
    + eapply pager_next; [reflexivity|reflexivity|].
      eapply pager_next; [reflexivity|reflexivity|].
      eapply pager_stop; [reflexivity|]. vm_compute. lia.
    + simpl. lia.
    + eexists _, _. split; [exact Hrun|]. split; vm_compute; reflexivity.
  - destruct (fetchAllGuildMembers_follows_pager 0 "g" w0
                [shortPage] [pageQuery None]
                {| script := []; refused := []; table := [] |}) as [Hrun _].
    + eapply pager_stop; [reflexivity|]. vm_compute. lia.
    + simpl. lia.
    + eexists _, _. split; [exact Hrun|]. split; vm_compute; reflexivity.
Defined.

Lemma member_sync_failures_witness :
  let w := mockWorld (seedCache [row "g" "1" ["old"]; row "g" "9" []])
             [inr [member "1" ["new"]; member "2" ["r"]; member "3" ["r"]]]
             ["2"] in
  let fetched :=
    fetchAllGuildMembers 0 "g"
      (world_of (emit (ConsoleLog (SyncingGuild "g")) w)) in
  ∃ w3,
    fetched =
      Fulfilled [member "1" ["new"]; member "2" ["r"]; member "3" ["r"]]
        (world_of fetched) ∧
    syncGuild 0 "g" w = Fulfilled tt w3 ∧
    upsertsRefused (trace w3) = [("g", "2", ["r"])] ∧
    upsertsConfirmed (trace w3) = [("g", "1", ["new"]); ("g", "3", ["r"])] ∧
    deletesConfirmed (trace w3) = [("g", "9")].
Proof.
  intros w fetched.
  assert (fetched =
          Fulfilled [member "1" ["new"]; member "2" ["r"]; member "3" ["r"]]
            (world_of fetched)) as Hfetch by (vm_compute; reflexivity).
  destruct (member_sync_failures_are_isolated 0 "g" w _ _ Hfetch)
    as (w2 & w3 & evsSync & evsPrune & Hrun & _).
  exists w3. split; [done|]. split; [done|].
  assert (w3 = world_of (syncGuild 0 "g" w)) as -> by (by rewrite Hrun).
  split_and!; vm_compute; reflexivity.
Defined.

Lemma seeded_cache_witness :
  let w : @World MockEnv :=
    {| rolesCache := ∅;
       env := {| script := []; refused := [];
                 table := row "h" "4" ["r"] :: rows123 |};
       trace := [] |} in
  let ms := [member "1" []; member "2" ["x"]; member "3" []] in
  sink_select (env w) ["g"] = (env w, inr rows123) ∧
  Forall row_wf rows123 ∧
  map user_id ms ≡ₚ map Some (rowIds "g" rows123) ∧
  ∃ cache w',
    fetchAllSupabaseRoles ["g"] w = Fulfilled cache w' ∧
    cache = seedCache rows123 ∧
    staleIds cache "g" ms = [].
Proof.
  intros w ms.
  assert (sink_select (env w) ["g"] = (env w, inr rows123)) as Hselect
    by (vm_compute; reflexivity).
  assert (Forall row_wf rows123) as Hrows by (by repeat constructor).
  assert (map user_id ms ≡ₚ map Some (rowIds "g" rows123)) as Hms
    by exact (Permutation_refl _).
  split_and!; [done..|].
  by apply (seeded_cache_has_no_stale_member w ["g"] (env w) rows123).
Defined.

Lemma pagination_settles_witness :
  let wA : @World Advancing :=
    {| rolesCache := ∅; env := advancing; trace := [] |} in
  let wR : @World Restarting :=
    {| rolesCache := ∅; env := restarting; trace := [] |} in
  (∃ fuel, settles (fetchAllGuildMembers fuel "g" wA)) ∧
  (∀ fuel,
     fetchAllGuildMembers fuel "g" wR =
     OutOfFuel
       {| rolesCache := ∅; env := restarting;
          trace := replicate (S fuel) (RestGet "g" (pageQuery None)) |}).
Proof.
  intros wA wR. split.
  - apply (proj1 (pagination_settles_when_cursor_advances "g") pagesLeft).
    + intros e [cursor|] e' page Hget Hlen; simpl in Hget;
        inversion Hget; subst page.
      * destruct (String.eqb cursor "1000"); vm_compute in Hlen;
          discriminate.
      * exists (member "1000" []), "1000". by vm_compute.
    + intros e [cursor|] e' page d Hget Hlen Hnext; simpl in Hget;
        inversion Hget; subst page.
      * destruct (String.eqb cursor "1000"); vm_compute in Hlen;
          discriminate.
      * simpl. lia.
  - intros fuel.
    apply (proj2 (pagination_settles_when_cursor_advances "g")
             restarting (fullPage {| user := None; roles := [] |}));
      by vm_compute.
Defined.

(** * Further properties of the code *)

(** ** What a run emits *)

Section Emitting.
Context {E : Type} `{Collaborators E}.
Implicit Types (w : @World E) (g d : string) (r : list string).
Implicit Types (P Q : Event → Prop).

Lemma Emits_weaken {A} P Q (m : @M E A) :
  (∀ ev, P ev → Q ev) → Emits P m → Emits Q m.
Proof.
  intros HPQ Hm w. destruct (Hm w) as (evs & Htrace & Hevs).
  exists evs. split; [done|]. by eapply Forall_impl.
Qed.

Lemma Emits_ret {A} P (a : A) : Emits P (@ret E A a).
Proof. intros w. exists []. by rewrite app_nil_r. Qed.

Lemma Emits_throw {A} P reason : Emits P (@throw E A reason).
Proof. intros w. exists []. by rewrite app_nil_r. Qed.

Lemma Emits_bind {A B} P (m : @M E A) (k : A → @M E B) :
  Emits P m → (∀ a, Emits P (k a)) → Emits P (bind m k).
Proof.
  intros Hm Hk w. destruct (Hm w) as (evs1 & Ht1 & He1). unfold bind.
  destruct (m w) as [a w'|reason w'|w']; [|by exists evs1..].
  destruct (Hk a w') as (evs2 & Ht2 & He2). exists (evs1 ++ evs2).
  cbn [world_of] in Ht1. split; [by rewrite Ht2, Ht1, app_assoc|].
  by apply Forall_app.
Qed.

Lemma Emits_emit P (ev : Event) : P ev → Emits P (@emit E ev).
Proof. intros Hev w. exists [ev]. split; [done|]. by constructor. Qed.

Lemma Emits_forEach {A} P (l : list A) (f : A → @M E unit) :
  (∀ x, x ∈ l → Emits P (f x)) → Emits P (forEach l f).
Proof.
  induction l as [|x l IH]; intros Hf; [apply Emits_ret|].
  apply Emits_bind; [apply Hf; by left|].
  intros _. apply IH. intros y Hy. apply Hf. by right.
Qed.

Lemma Emits_settle P (m : @M E unit) : Emits P m → Emits P (settle m).
Proof. intros Hm w. rewrite world_of_settle. apply Hm. Qed.

Lemma Emits_upsertUserRoles g d r :
  truthy d = true → Emits (sync_event g) (upsertUserRoles g d r).
Proof.
  intros Hd w. rewrite upsertUserRoles_run. cbn [world_of].
  destruct (sink_upsert (env w) g d r) as [e [message|]];
    eexists; (split; [done|]); repeat constructor; try done.
  by exists d.
Qed.

Lemma Emits_removeUserRoles g d : Emits (prune_event g) (removeUserRoles g d).
Proof.
  intros w. rewrite removeUserRoles_run. cbn [world_of].
  destruct (sink_delete (env w) g d) as [e [message|]];
    eexists; (split; [done|]); repeat constructor; try done.
  by exists d.
Qed.

Lemma Emits_settleEach g (us : list Upsert) :
  (∀ g' d r, (g', d, r) ∈ us → g' = g ∧ truthy d = true) →
  Emits (sync_event g) (settleEach us).
Proof.
  induction us as [|[[g' d] r] us IH]; intros Hus; [apply Emits_ret|].
  destruct (Hus g' d r) as [-> Hd]; [by left|].
  apply Emits_bind.
  { by apply Emits_settle, Emits_upsertUserRoles. }
  intros res. apply Emits_bind; [|intros rs; apply Emits_ret].
  apply IH. intros g' d' r' Hin. apply (Hus g' d' r'). by right.
Qed.

(** The upserts decided for a batch are for members of the batch that have
    an identifier, with the roles observed for them. *)
Lemma elem_of_pending (cache : JsMap) g g' d r
    (ms : list APIGuildMember) :
  (g', d, r) ∈ omap (startSync cache g) (withUserId ms) →
  g' = g ∧ truthy d = true ∧
  ∃ m, m ∈ ms ∧ user_id m = Some d ∧ roles m = r ∧
       syncUserRoles_decide cache g d r = Some (g, d, r).
Proof.
  intros (m & [Hm Hid]%elem_of_List_filter & Hstart)%list_elem_of_omap.
  unfold startSync in Hstart. unfold user_id in Hid.
  destruct (user m) as [u|] eqn:Hu; [|done]. simpl in Hid.
  destruct (syncUserRoles_decide_cases cache g (id u) (roles m))
    as [Hdec|Hdec]; rewrite Hdec in Hstart; [done|].
  injection Hstart as <- <- <-. split_and!; [done..|].
  exists m. unfold user_id. by rewrite Hu.
Qed.

Lemma Emits_syncAllMembers g (ms : list APIGuildMember) :
  Emits (sync_event g) (syncAllMembers g ms).
Proof.
  intros w. unfold syncAllMembers. apply Emits_settleEach.
  intros g' d r Hin. rewrite settle_order_perm in Hin.
  apply elem_of_pending in Hin. tauto.
Qed.

Lemma Emits_removeDeparted g (ms : list APIGuildMember) :
  Emits (prune_event g) (removeDeparted g ms).
Proof.
  intros w. unfold removeDeparted. apply Emits_forEach.
  intros key _. unfold removeIfDeparted.
  destruct (bool_decide _); [apply Emits_ret|apply Emits_removeUserRoles].
Qed.

Lemma Emits_fetchGuildMembersPage g (cursor : option string) :
  Emits (page_request g) (fetchGuildMembersPage g cursor).
Proof.
  intros w. rewrite fetchGuildMembersPage_run. cbv zeta.
  assert (page_request g
            (RestGet g (pageQuery
                          (if truthy_opt cursor then cursor else None))))
    as Hreq.
  { eexists. split; [done|]. by destruct cursor as [[|c s]|]. }
  destruct (rest_get _ _ _) as [e [reason|page]];
    eexists; (split; [done|]); by repeat constructor.
Qed.

Lemma Emits_fetchRemainingPages fuel g (acc page : list APIGuildMember) :
  Emits (page_request g) (fetchRemainingPages fuel g acc page).
Proof.
  revert acc page.
  induction fuel as [|fuel IH]; intros acc page; cbn [fetchRemainingPages];
    destruct (Nat.eqb _ _); try apply Emits_ret.
  - intros w. exists []. by rewrite app_nil_r.
  - destruct (last acc); [|apply Emits_throw].
    apply Emits_bind; [apply Emits_fetchGuildMembersPage|].
    intros page'. apply IH.
Qed.

Lemma Emits_fetchAllGuildMembers fuel g :
  Emits (page_request g) (fetchAllGuildMembers fuel g).
Proof.
  apply Emits_bind; [apply Emits_fetchGuildMembersPage|].
  intros page. apply Emits_fetchRemainingPages.
Qed.

Lemma page_request_within guildIds g ev :
  g ∈ guildIds → page_request g ev → within_guilds guildIds ev.
Proof. intros Hg (cursor & -> & Hcursor). by split_and!. Qed.

Lemma sync_event_within guildIds g ev :
  g ∈ guildIds → sync_event g ev → within_guilds guildIds ev.
Proof.
  intros Hg Hev. destruct ev; try done; simpl in *.
  - by destruct Hev as [-> ?].
  - destruct Hev as [d ->]. by exists g, d.
Qed.

Lemma prune_event_within guildIds g ev :
  g ∈ guildIds → prune_event g ev → within_guilds guildIds ev.
Proof.
  intros Hg Hev. destruct ev; try done; simpl in *.
  - by subst.
  - destruct Hev as [d ->]. by exists g, d.
Qed.

Lemma Emits_syncGuild fuel guildIds g :
  g ∈ guildIds → Emits (within_guilds guildIds) (syncGuild fuel g).
Proof.
  intros Hg. unfold syncGuild.
  apply Emits_bind; [by apply Emits_emit|intros _].
  apply Emits_bind.
  { eapply Emits_weaken; [|apply Emits_fetchAllGuildMembers].
    intros ev. by apply page_request_within. }
  intros guildMembers.
  apply Emits_bind; [by apply Emits_emit|intros _].
  apply Emits_bind.
  { eapply Emits_weaken; [|apply Emits_syncAllMembers].
    intros ev. by apply sync_event_within. }
  intros syncResults. apply Emits_bind.
  { destruct (Nat.ltb _ _); [by apply Emits_emit|apply Emits_ret]. }
  intros _. eapply Emits_weaken; [|apply Emits_removeDeparted].
  intros ev. by apply prune_event_within.
Qed.

(** X1.  Whatever the collaborators answer and however it ends, [initialSync]
    only concerns the configured guilds: every page request, upsert, delete
    and cache mutation is for one of [guildIds]; every page request carries
    the limit [PAGE_LIMIT] and a cursor that is absent or not empty; every
    upsert is for a member with a non-empty identifier; the rows are never
    selected again. *)
Theorem initialSync_stays_within_guilds fuel (guildIds : list string) w :
  ∃ evs,
    trace (world_of (initialSync fuel guildIds w)) = trace w ++ evs ∧
    Forall (within_guilds guildIds) evs.
Proof.
  revert w. apply Emits_forEach. intros g Hg. by apply Emits_syncGuild.
Qed.

Lemma KeepsCache_fetchGuildMembersPage g (cursor : option string) :
  KeepsCache (fetchGuildMembersPage g cursor).
Proof.
  intros w. rewrite fetchGuildMembersPage_run. cbv zeta.
  by destruct (rest_get _ _ _) as [e [reason|page]].
Qed.

Lemma KeepsCache_bind {A B} (m : @M E A) (k : A → @M E B) :
  KeepsCache m → (∀ a, KeepsCache (k a)) → KeepsCache (bind m k).
Proof.
  intros Hm Hk w. specialize (Hm w). unfold bind.
  destruct (m w) as [a w'|reason w'|w']; [|done..].
  cbn [world_of] in Hm. by rewrite Hk.
Qed.

Lemma KeepsCache_fetchRemainingPages fuel g (acc page : list APIGuildMember) :
  KeepsCache (fetchRemainingPages fuel g acc page).
Proof.
  revert acc page.
  induction fuel as [|fuel IH]; intros acc page; cbn [fetchRemainingPages];
    destruct (Nat.eqb _ _); try done.
  destruct (last acc); [|done].
  apply KeepsCache_bind; [apply KeepsCache_fetchGuildMembersPage|].
  intros page'. apply IH.
Qed.

Lemma KeepsCache_fetchAllGuildMembers fuel g :
  KeepsCache (fetchAllGuildMembers fuel g).
Proof.
  apply KeepsCache_bind; [apply KeepsCache_fetchGuildMembersPage|].
  intros page. apply KeepsCache_fetchRemainingPages.
Qed.

(** X2.  Fetching the members of a guild only reads: however the fetch ends
    (with the members, with the error of a request, or cut off), the cache is
    the one before, and the events are page requests of that guild alone. *)
Theorem fetchAllGuildMembers_only_reads fuel g w :
  rolesCache (world_of (fetchAllGuildMembers fuel g w)) = rolesCache w ∧
  ∃ evs,
    trace (world_of (fetchAllGuildMembers fuel g w)) = trace w ++ evs ∧
    Forall (page_request g) evs.
Proof.
  split; [apply KeepsCache_fetchAllGuildMembers|].
  apply Emits_fetchAllGuildMembers.
Qed.

End Emitting.

(** ** The phases of one guild *)

Lemma since_app {E} (w w' : @World E) (evs : list Event) :
  trace w' = trace w ++ evs → since w w' = evs.
Proof. intros Htrace. unfold since. by rewrite Htrace, drop_app_length. Qed.

Lemma upsertsRefused_app (a b : list Event) :
  upsertsRefused (a ++ b) = upsertsRefused a ++ upsertsRefused b.
Proof. apply omap_app. Qed.

Lemma deletesRefused_app (a b : list Event) :
  deletesRefused (a ++ b) = deletesRefused a ++ deletesRefused b.
Proof. apply omap_app. Qed.

Lemma deletesConfirmed_nil (evs : list Event) :
  deleteCalls evs = [] → deletesConfirmed evs = [].
Proof.
  unfold deleteCalls, deletesConfirmed. rewrite !omap_nil_iff.
  intros Hall ev Hev. specialize (Hall ev Hev).
  by destruct ev as [| | |? ? [|]| | | |].
Qed.

Lemma upsertsConfirmed_all (evs : list Event) :
  upsertsRefused evs = [] → upsertsConfirmed evs = upsertCalls evs.
Proof.
  induction evs as [|ev evs IH]; [done|].
  destruct ev as [| |? ? ? [|]| | | | |]; simpl; try done.
  intros Hnone. f_equal. by apply IH.
Qed.

Lemma deletesConfirmed_all (evs : list Event) :
  deletesRefused evs = [] → deletesConfirmed evs = deleteCalls evs.
Proof.
  induction evs as [|ev evs IH]; [done|].
  destruct ev as [| | |? ? [|]| | | |]; simpl; try done.
  intros Hnone. f_equal. by apply IH.
Qed.

Lemma page_requests_no_mutation g (evs : list Event) :
  Forall (page_request g) evs →
  upsertCalls evs = [] ∧ deleteCalls evs = [] ∧
  upsertsRefused evs = [] ∧ deletesRefused evs = [].
Proof.
  intros Hall. rewrite Forall_forall in Hall.
  unfold upsertCalls, deleteCalls, upsertsRefused, deletesRefused.
  rewrite !omap_nil_iff.
  split_and!; intros ev Hev; by destruct (Hall ev Hev) as (cursor & -> & _).
Qed.

Lemma omap_nil_sub {A B C} (f : A → option B) (f' : A → option C)
    (l : list A) :
  (∀ x, f x = None → f' x = None) → omap f l = [] → omap f' l = [].
Proof. rewrite !omap_nil_iff. auto. Qed.

Lemma upsertsRefused_nil (evs : list Event) :
  upsertCalls evs = [] → upsertsRefused evs = [].
Proof.
  apply omap_nil_sub. intros ev. by destruct ev as [| |? ? ? [|]| | | | |].
Qed.

Lemma deletesRefused_nil (evs : list Event) :
  deleteCalls evs = [] → deletesRefused evs = [].
Proof.
  apply omap_nil_sub. intros ev. by destruct ev as [| | |? ? [|]| | | |].
Qed.

Section Phases.
Context {E : Type} `{Collaborators E}.
Implicit Types (w : @World E) (g d : string) (ms : list APIGuildMember).

(** The run of [syncGuild] after a fulfilled fetch, phase by phase. *)
Lemma syncGuild_phases fuel g w ms w1 :
  fetchAllGuildMembers fuel g (world_of (emit (ConsoleLog (SyncingGuild g)) w))
    = Fulfilled ms w1 →
  ∃ w2 w3 fevs evsSync evsPrune,
    syncGuild fuel g w = Fulfilled tt w3 ∧
    rolesCache w1 = rolesCache w ∧
    trace w1 = trace w ++ ConsoleLog (SyncingGuild g) :: fevs ∧
    Forall (page_request g) fevs ∧
    trace w2 =
      trace w1 ++ ConsoleLog (FoundMembers (length ms) g) :: evsSync ∧
    rolesCache w2 = applyConfirmed evsSync (rolesCache w1) ∧
    upsertCalls evsSync =
      settle_order (omap (startSync (rolesCache w1) g) (withUserId ms)) ∧
    deleteCalls evsSync = [] ∧
    follows w2 w3 evsPrune ∧
    upsertCalls evsPrune = [] ∧
    deleteCalls evsPrune = map (pair g) (staleIds (rolesCache w2) g ms).
Proof.
  intros Hfetch.
  pose proof (KeepsCache_fetchAllGuildMembers fuel g
                (world_of (emit (ConsoleLog (SyncingGuild g)) w))) as Hkeep.
  destruct (Emits_fetchAllGuildMembers fuel g
              (world_of (emit (ConsoleLog (SyncingGuild g)) w)))
    as (fevs & Hftrace & Hfevs).
  rewrite Hfetch in Hkeep, Hftrace. cbn [emit world_of] in *.
  cbn [rolesCache trace] in Hkeep, Hftrace.
  unfold syncGuild. rewrite bind_emit, (bind_Fulfilled _ _ _ _ _ Hfetch).
  rewrite bind_emit.
  set (pending := omap (startSync (rolesCache w1) g) (withUserId ms)).
  match goal with |- context [bind (syncAllMembers g ms) _ ?w1'] =>
    destruct (settleEach_run (settle_order pending) w1')
      as (w2 & evsSync & rs & Hsync & (Htr2 & _ & Hc2) & Hup & Hdel & Hrej);
    assert (syncAllMembers g ms w1' = Fulfilled rs w2) as Hsync'
      by exact Hsync
  end.
  rewrite (bind_Fulfilled _ _ _ _ _ Hsync'). cbv zeta. rewrite Hrej.
  cbn [length Nat.ltb Nat.leb]. rewrite bind_ret_l.
  rewrite removeDeparted_staleIds.
  destruct (forEach_removeUserRoles g (staleIds (rolesCache w2) g ms) w2)
    as (w3 & evsPrune & Hprune & Hfollows & Hdel3 & Hup3 & _).
  cbn [rolesCache trace] in Htr2, Hc2.
  exists w2, w3, fevs, evsSync, evsPrune. split_and!; try done.
  - by rewrite Hftrace, <-app_assoc.
  - by rewrite Htr2, <-app_assoc.
Qed.

Lemma syncGuild_since g w ms w1 w2 w3 fevs evsSync evsPrune :
  trace w1 = trace w ++ ConsoleLog (SyncingGuild g) :: fevs →
  trace w2 = trace w1 ++ ConsoleLog (FoundMembers (length ms) g) :: evsSync →
  trace w3 = trace w2 ++ evsPrune →
  since w w3 =
    (ConsoleLog (SyncingGuild g) :: fevs ++
     [ConsoleLog (FoundMembers (length ms) g)]) ++ evsSync ++ evsPrune.
Proof.
  intros H1 H2 H3. apply since_app. rewrite H3, H2, H1.
  rewrite <-!app_assoc. simpl. by rewrite <-!app_assoc.
Qed.

(** [syncGuild] is rejected only by its fetch. *)
Lemma syncGuild_rejected fuel g w reason w' :
  syncGuild fuel g w = Rejected reason w' →
  fetchAllGuildMembers fuel g (world_of (emit (ConsoleLog (SyncingGuild g)) w))
    = Rejected reason w'.
Proof.
  intros Hrun.
  destruct (fetchAllGuildMembers fuel g
              (world_of (emit (ConsoleLog (SyncingGuild g)) w)))
    as [ms w1|reason1 w1|w1] eqn:Hfetch.
  - destruct (syncGuild_phases fuel g w ms w1 Hfetch)
      as (w2 & w3 & ? & ? & ? & Hfull & _). congruence.
  - cbn [emit world_of] in Hfetch. revert Hrun. unfold syncGuild.
    rewrite bind_emit, (bind_Rejected _ _ _ _ _ Hfetch). by intros [= <- <-].
  - cbn [emit world_of] in Hfetch. revert Hrun. unfold syncGuild.
    rewrite bind_emit. unfold bind at 1. by rewrite Hfetch.
Qed.

(** A rejected page request is the last event, and its error the reason. *)
Lemma fetchGuildMembersPage_rejected g (cursor : option string) w reason w' :
  fetchGuildMembersPage g cursor w = Rejected reason w' →
  ∃ c, trace w' = trace w ++ [RestGet g (pageQuery c)] ∧
       rest_get (env w) g (pageQuery c) = (env w', inl reason).
Proof.
  rewrite fetchGuildMembersPage_run. cbv zeta.
  destruct (rest_get _ _ _) as [e [reason1|page]] eqn:Hget; [|done].
  intros [= <- <-]. by eexists.
Qed.

Lemma fetchRemainingPages_rejected fuel g (acc page : list APIGuildMember)
    w reason w' :
  last acc = last page →
  fetchRemainingPages fuel g acc page w = Rejected reason w' →
  ∃ tr c e, trace w' = tr ++ [RestGet g (pageQuery c)] ∧
            rest_get e g (pageQuery c) = (env w', inl reason).
Proof.
  revert acc page w.
  induction fuel as [|fuel IH]; intros acc page w Hlast;
    cbn [fetchRemainingPages];
    destruct (Nat.eqb _ _) eqn:Hlen; try done.
  apply Nat.eqb_eq in Hlen.
  destruct (full_page_last page Hlen) as [m Hm].
  rewrite Hlast, Hm. unfold bind.
  destruct (fetchGuildMembersPage g (user_id m) w)
    as [page' w1|reason1 w1|w1] eqn:Hpage; [|intros [= <- <-]|done].
  - destruct (Nat.eqb (length page') PAGE_LIMIT) eqn:Hlen'.
    + apply IH. apply Nat.eqb_eq in Hlen'. by apply last_app_full.
    + by rewrite fetchRemainingPages_short.
  - apply fetchGuildMembersPage_rejected in Hpage as (c & Htrace & Hget).
    by eexists _, _, _.
Qed.

Lemma fetchAllGuildMembers_rejected fuel g w reason w' :
  fetchAllGuildMembers fuel g w = Rejected reason w' →
  ∃ tr c e, trace w' = tr ++ [RestGet g (pageQuery c)] ∧
            rest_get e g (pageQuery c) = (env w', inl reason).
Proof.
  unfold fetchAllGuildMembers, bind.
  destruct (fetchGuildMembersPage g None w)
    as [page w1|reason1 w1|w1] eqn:Hpage; [|intros [= <- <-]|done].
  - by apply fetchRemainingPages_rejected.
  - apply fetchGuildMembersPage_rejected in Hpage as (c & Htrace & Hget).
    by eexists _, _, _.
Qed.

(** X3.  [initialSync] is rejected only by a failed page request: when it is
    rejected, the last event is a page request of a configured guild, and the
    reason is the error that request was answered with.  In particular no
    answer of the sink ever makes it fail. *)
Theorem initialSync_rejected_only_by_fetch fuel (guildIds : list string)
    w reason w' :
  initialSync fuel guildIds w = Rejected reason w' →
  ∃ tr g c e,
    g ∈ guildIds ∧
    trace w' = tr ++ [RestGet g (pageQuery c)] ∧
    rest_get e g (pageQuery c) = (env w', inl reason).
Proof.
  unfold initialSync. revert w.
  induction guildIds as [|g guildIds IH]; intros w; [done|].
  cbn [forEach]. unfold bind.
  destruct (syncGuild fuel g w) as [[] w1|reason1 w1|w1] eqn:Hguild.
  - intros (tr & g' & c & e & Hg' & Hrest)%IH.
    exists tr, g', c, e. split; [by right|done].
  - intros [= <- <-].
    apply syncGuild_rejected, fetchAllGuildMembers_rejected in Hguild
      as (tr & c & e & Htrace & Hget).
    exists tr, g, c, e. split; [by left|done].
  - done.
Qed.

End Phases.
(** ** A guild that is already in sync *)

Section InSync.
Context {E : Type} `{Collaborators E}.
Implicit Types (w : @World E) (g d : string) (ms : list APIGuildMember).
Implicit Types (cache : JsMap).

Lemma settle_order_nil : settle_order [] = [].
Proof. apply Permutation_nil_r, settle_order_perm. Qed.

Lemma syncUserRoles_decide_same cache g d (r roles : list string) :
  cache !! cacheKey g d = Some r → sameRoles r roles →
  syncUserRoles_decide cache g d roles = None.
Proof.
  intros Hlookup Hsame. apply syncUserRoles_decide_unchanged.
  rewrite Hlookup. intros [role Hrole]. specialize (Hsame role). tauto.
Qed.

Lemma syncUserRoles_decide_None cache g d (roles : list string) :
  syncUserRoles_decide cache g d roles = None →
  ∃ r, cache !! cacheKey g d = Some r ∧ sameRoles r roles.
Proof.
  unfold syncUserRoles_decide.
  destruct (cache !! cacheKey g d) as [r|]; [|done].
  destruct (Nat.eqb _ _) eqn:Hsize; [|done]. intros _.
  exists r. split; [done|]. unfold sameRoles.
  by apply (proj1 (symmetricDifference_size_0 r roles)), Nat.eqb_eq.
Qed.

(** Nothing is left to upsert when the cache agrees with the members. *)
Lemma pending_nil cache g ms :
  inSync cache g ms → omap (startSync cache g) (withUserId ms) = [].
Proof.
  intros Hsync. apply omap_nil_iff.
  intros m [Hm Hid]%elem_of_List_filter. unfold startSync.
  destruct (user m) as [u|] eqn:Hu; [|done].
  unfold user_id in Hid. rewrite Hu in Hid. simpl in Hid.
  destruct (Hsync m (id u)) as (r & Hlookup & Hsame); [done| |done|].
  { unfold user_id. by rewrite Hu. }
  by eapply syncUserRoles_decide_same.
Qed.

(** Nothing is stale when every cached member of the guild was fetched. *)
Lemma staleIds_nil cache g ms :
  cache_wf cache → noDeparted cache g ms → staleIds cache g ms = [].
Proof.
  intros Hwf Hnone. destruct (staleIds cache g ms) as [|d ds] eqn:Hstale;
    [done|].
  assert (d ∈ staleIds cache g ms) as Hd by (rewrite Hstale; by left).
  apply elem_of_staleIds in Hd as [Hsome Hnot]; [|done].
  by destruct Hnot; apply Hnone.
Qed.

(** X4.  A pass over a guild whose cache already agrees with the fetched
    members (every member with an identifier is cached with the same set of
    roles, no other member of the guild is cached, keys built from
    snowflakes) changes nothing: after the fetch it sends no upsert and no
    delete, and only writes the line with the number of members. *)
Theorem synced_guild_pass_is_silent fuel g w ms w1 :
  fetchAllGuildMembers fuel g (world_of (emit (ConsoleLog (SyncingGuild g)) w))
    = Fulfilled ms w1 →
  cache_wf (rolesCache w) →
  inSync (rolesCache w) g ms →
  noDeparted (rolesCache w) g ms →
  syncGuild fuel g w =
  Fulfilled tt
    {| rolesCache := rolesCache w; env := env w1;
       trace := trace w1 ++ [ConsoleLog (FoundMembers (length ms) g)] |}.
Proof.
  intros Hfetch Hwf Hsync Hnone.
  pose proof (KeepsCache_fetchAllGuildMembers fuel g
                (world_of (emit (ConsoleLog (SyncingGuild g)) w))) as Hkeep.
  rewrite Hfetch in Hkeep. cbn [emit world_of rolesCache] in Hkeep, Hfetch.
  unfold syncGuild. rewrite bind_emit, (bind_Fulfilled _ _ _ _ _ Hfetch).
  rewrite bind_emit. unfold bind at 1, syncAllMembers at 1.
  cbn [rolesCache]. rewrite Hkeep, (pending_nil _ _ _ Hsync).
  rewrite settle_order_nil. cbn [settleEach ret List.filter length Nat.ltb
                                  Nat.leb].
  rewrite bind_ret_l, removeDeparted_staleIds. cbn [rolesCache].
  by rewrite (staleIds_nil _ _ _ Hwf Hnone).
Qed.

End InSync.
(** ** Bringing a guild in sync *)

Lemma applyConfirmed_snoc (evs : list Event) (ev : Event)
    (cache : JsMap) :
  applyConfirmed (evs ++ [ev]) cache = confirm (applyConfirmed evs cache) ev.
Proof. by rewrite applyConfirmed_app. Qed.

Lemma upsertsConfirmed_cons (ev : Event) (evs : list Event) (u : Upsert) :
  u ∈ upsertsConfirmed evs → u ∈ upsertsConfirmed (ev :: evs).
Proof.
  intros Hu. destruct ev as [| |? ? ? [|]| | | | |]; simpl; try done.
  by right.
Qed.

(** A mirror that only sees upserts confirmed: a key that none of them
    writes keeps its entry; a key that they all write with the same roles
    holds these roles. *)
Lemma applyConfirmed_untouched (evs : list Event)
    (cache : JsMap) (key : string) :
  deletesConfirmed evs = [] →
  (∀ g d r, (g, d, r) ∈ upsertsConfirmed evs → key ≠ cacheKey g d) →
  applyConfirmed evs cache !! key = cache !! key.
Proof.
  revert cache. induction evs as [|ev evs IH]; intros cache Hdel Hup; [done|].
  assert (deletesConfirmed evs = []) as Hdel'.
  { by destruct ev as [| | |? ? [|]| | | |]. }
  rewrite applyConfirmed_cons, IH; [|done|].
  - destruct ev as [| |g d r [|]|? ? [|]| | | |]; try done. cbn [confirm].
    apply get_set_ne. intros Heq.
    by apply (Hup g d r); [left|].
  - intros g d r Hin. apply (Hup g d r). by apply upsertsConfirmed_cons.
Qed.

Lemma applyConfirmed_upserted (evs : list Event)
    (cache : JsMap) (g d : string) (r : list string) :
  deletesConfirmed evs = [] →
  (g, d, r) ∈ upsertsConfirmed evs →
  (∀ g' d' r', (g', d', r') ∈ upsertsConfirmed evs →
     cacheKey g' d' = cacheKey g d → r' = r) →
  applyConfirmed evs cache !! cacheKey g d = Some r.
Proof.
  induction evs as [|ev evs IH] using rev_ind; intros Hdel Hin Huniq.
  { by apply elem_of_nil in Hin. }
  rewrite applyConfirmed_snoc.
  rewrite deletesConfirmed_app in Hdel. apply app_eq_nil in Hdel as [Hdel Hev].
  rewrite upsertsConfirmed_app in Hin.
  assert (∀ g' d' r', (g', d', r') ∈ upsertsConfirmed evs →
            cacheKey g' d' = cacheKey g d → r' = r) as Huniq'.
  { intros g' d' r' Hin'. apply (Huniq g' d' r').
    rewrite upsertsConfirmed_app. apply elem_of_app. by left. }
  destruct ev as [| |g1 d1 r1 [|]|? ? [|]| | | |]; simpl in Hin, Hev;
    try (rewrite app_nil_r in Hin; by apply IH); try done.
  cbn [confirm].
  destruct (decide (cacheKey g1 d1 = cacheKey g d)) as [Heq|Hne].
  - rewrite Heq, get_set_eq. f_equal. apply (Huniq g1 d1 r1); [|done].
    rewrite upsertsConfirmed_app. apply elem_of_app. right. by left.
  - rewrite get_set_ne by done. apply IH; [done| |done].
    apply elem_of_app in Hin as [Hin|Hin]; [done|].
    apply list_elem_of_singleton in Hin. by simplify_eq.
Qed.

Lemma cache_wf_delete (cache : JsMap) (key : string) :
  cache_wf cache → cache_wf (delete key cache).
Proof.
  intros Hwf k [v Hv]. apply get_delete_Some in Hv as [_ Hv].
  apply Hwf. by exists v.
Qed.

(** Confirmed mutations keep the keys of the cache well formed as long as
    the upserts are for identifiers without [":"]. *)
Lemma cache_wf_applyConfirmed (evs : list Event)
    (cache : JsMap) :
  cache_wf cache →
  (∀ g d r, (g, d, r) ∈ upsertsConfirmed evs →
     colon_free g = true ∧ colon_free d = true) →
  cache_wf (applyConfirmed evs cache).
Proof.
  revert cache. induction evs as [|ev evs IH]; intros cache Hwf Hup; [done|].
  rewrite applyConfirmed_cons. apply IH.
  - destruct ev as [| |g d r [|]|? ? [|]| | | |]; cbn [confirm]; try done.
    + destruct (Hup g d r) as [Hg Hd]; [by left|].
      by apply cache_wf_insert.
    + by apply cache_wf_delete.
  - intros g d r Hin. apply (Hup g d r). by apply upsertsConfirmed_cons.
Qed.

Lemma NoDup_omap_inj {A B} (f : A → option B) (l : list A) (x y : A) (b : B) :
  NoDup (omap f l) → x ∈ l → y ∈ l → f x = Some b → f y = Some b → x = y.
Proof.
  induction l as [|a l IH]; intros Hnd Hx Hy Hfx Hfy.
  { by apply elem_of_nil in Hx. }
  simpl in Hnd. destruct (f a) as [b'|] eqn:Hfa.
  - apply NoDup_cons in Hnd as [Hnotin Hnd].
    apply elem_of_cons in Hx as [->|Hx]; apply elem_of_cons in Hy as [->|Hy];
      try done.
    + destruct Hnotin. apply list_elem_of_omap. exists y. split; [done|].
      congruence.
    + destruct Hnotin. apply list_elem_of_omap. exists x. split; [done|].
      congruence.
    + by apply IH.
  - apply elem_of_cons in Hx as [->|Hx]; [congruence|].
    apply elem_of_cons in Hy as [->|Hy]; [congruence|]. by apply IH.
Qed.

Lemma elem_of_memberIds (ms : list APIGuildMember) (d : string) :
  d ∈ memberIds ms ↔ truthy d = true ∧ ∃ m, m ∈ ms ∧ user_id m = Some d.
Proof.
  unfold memberIds. rewrite list_elem_of_omap. split.
  - intros (m & Hm & Hid). destruct (user_id m) as [d'|] eqn:Hd; [|done].
    destruct (truthy d') eqn:Htruthy; [|done]. injection Hid as ->.
    split; [done|]. by exists m.
  - intros (Htruthy & m & Hm & Hid). exists m. split; [done|].
    by rewrite Hid, Htruthy.
Qed.

Section Convergence.
Context {E : Type} `{Collaborators E}.
Implicit Types (w : @World E) (g d : string) (ms : list APIGuildMember).

(** X5.  A pass in which the sink refuses nothing brings the guild in sync.
    Assume the fetch returned [ms], in which no identifier occurs twice, the
    identifiers are snowflakes (no [":"]), and neither an upsert nor a delete
    of the pass was refused.  Then afterwards every fetched member with an
    identifier is cached with the set of roles observed for it, no other
    member of the guild is cached, and the keys are still well formed. *)
Theorem confirmed_pass_brings_guild_in_sync fuel g w ms w1 :
  fetchAllGuildMembers fuel g (world_of (emit (ConsoleLog (SyncingGuild g)) w))
    = Fulfilled ms w1 →
  cache_wf (rolesCache w) →
  colon_free g = true →
  (∀ d, d ∈ memberIds ms → colon_free d = true) →
  NoDup (memberIds ms) →
  upsertsRefused (since w (world_of (syncGuild fuel g w))) = [] →
  deletesRefused (since w (world_of (syncGuild fuel g w))) = [] →
  ∃ w3,
    syncGuild fuel g w = Fulfilled tt w3 ∧
    cache_wf (rolesCache w3) ∧
    inSync (rolesCache w3) g ms ∧
    noDeparted (rolesCache w3) g ms.
Proof.
  intros Hfetch Hwf Hg Hids Hnodup.
  destruct (syncGuild_phases fuel g w ms w1 Hfetch)
    as (w2 & w3 & fevs & evsSync & evsPrune & Hrun & Hc1 & Htr1 & Hfevs &
        Htr2 & Hc2 & Hup & Hdel & (Htr3 & _ & Hc3) & Hup3 & Hdel3).
  rewrite Hrun. cbn [world_of].
  rewrite (syncGuild_since g w ms w1 w2 w3 fevs evsSync evsPrune)
    by done.
  rewrite !upsertsRefused_app, !deletesRefused_app.
  intros Hnoup Hnodel.
  apply app_eq_nil in Hnoup as [_ [HupS _]%app_eq_nil].
  apply app_eq_nil in Hnodel as [_ [_ HdelP]%app_eq_nil].
  rewrite Hc1 in Hc2, Hup.
  set (cache1 := rolesCache w) in *.
  set (pending := omap (startSync cache1 g) (withUserId ms)) in *.
  apply upsertsConfirmed_all in HupS. rewrite Hup in HupS.
  apply deletesConfirmed_nil in Hdel.
  apply deletesConfirmed_all in HdelP. rewrite Hdel3 in HdelP.
  apply upsertsConfirmed_nil in Hup3.
  assert (∀ g' d r, (g', d, r) ∈ upsertsConfirmed evsSync →
            g' = g ∧ truthy d = true ∧
            ∃ m, m ∈ ms ∧ user_id m = Some d ∧ roles m = r ∧
                 syncUserRoles_decide cache1 g d r = Some (g, d, r))
    as Hconfirmed.
  { intros g' d r. rewrite HupS, settle_order_perm. apply elem_of_pending. }
  assert (∀ m m' d, m ∈ ms → m' ∈ ms → truthy d = true →
            user_id m = Some d → user_id m' = Some d → m = m') as Hinj.
  { intros m m' d Hm Hm' Htruthy Hd Hd'.
    eapply (NoDup_omap_inj _ ms m m' d Hnodup); try done.
    - by rewrite Hd, Htruthy.
    - by rewrite Hd', Htruthy. }
  assert (cache_wf (rolesCache w2)) as Hwf2.
  { rewrite Hc2. apply cache_wf_applyConfirmed; [done|].
    intros g' d r (-> & Htruthy & m & Hm & Hd & _)%Hconfirmed.
    split; [done|]. apply Hids, elem_of_memberIds. split; [done|].
    by exists m. }
  assert (inSync (rolesCache w2) g ms) as Hsync2.
  { intros m d Hm Hd Htruthy. rewrite Hc2.
    destruct (syncUserRoles_decide_cases cache1 g d (roles m))
      as [Hdec|Hdec].
    - destruct (syncUserRoles_decide_None _ _ _ _ Hdec)
        as (r & Hlookup & Hsame).
      exists r. split; [|done].
      rewrite applyConfirmed_untouched; [done..|].
      intros g' d' r' (-> & _ & m' & Hm' & Hd' & <- & Hdec')%Hconfirmed Heq.
      unfold cacheKey in Heq.
      apply append_inj_l, (append_inj_l ":") in Heq. subst d'.
      assert (m = m') as <- by by eapply Hinj. congruence.
    - exists (roles m). split; [|done].
      apply applyConfirmed_upserted; [done| |].
      + rewrite HupS, settle_order_perm. apply list_elem_of_omap.
        exists m. split.
        * apply elem_of_List_filter. split; [done|]. by rewrite Hd.
        * unfold startSync. unfold user_id in Hd.
          destruct (user m) as [u|]; [|done]. by injection Hd as <-.
      + intros g' d' r' (-> & _ & m' & Hm' & Hd' & <- & _)%Hconfirmed Heq.
        unfold cacheKey in Heq.
        apply append_inj_l, (append_inj_l ":") in Heq. subst d'.
        by assert (m = m') as <- by by eapply Hinj. }
  assert (∀ g' d, (g', d) ∈ deletesConfirmed evsPrune →
            g' = g ∧ Some d ∉ discordUserIds ms) as Hdeleted.
  { intros g' d. rewrite HdelP, elem_of_List_map.
    intros (d' & [= <- <-] & Hstale). split; [done|].
    by apply elem_of_staleIds in Hstale as [_ ?]. }
  exists w3. split_and!; [done|..].
  - rewrite Hc3. apply cache_wf_applyConfirmed; [done|].
    intros g' d r Hin. rewrite Hup3 in Hin. by apply elem_of_nil in Hin.
  - intros m d Hm Hd Htruthy.
    destruct (Hsync2 m d Hm Hd Htruthy) as (r & Hlookup & Hsame).
    exists r. split; [|done].
    rewrite Hc3, applyConfirmed_kept; [done..|].
    intros g' d' [-> Hnot]%Hdeleted Heq. unfold cacheKey in Heq.
    apply append_inj_l, (append_inj_l ":") in Heq. subst d'.
    apply Hnot, elem_of_discordUserIds. split; [done|]. by exists m.
  - intros d Hsome.
    destruct (decide (Some d ∈ discordUserIds ms)) as [|Hnot]; [done|].
    exfalso.
    destruct (decide ((g, d) ∈ deletesConfirmed evsPrune)) as [Hin|Hnin].
    { rewrite Hc3, applyConfirmed_deleted in Hsome by done.
      by destruct Hsome. }
    rewrite Hc3, applyConfirmed_kept in Hsome; [|done|].
    + apply Hnin. rewrite HdelP, elem_of_List_map. exists d.
      split; [done|]. by apply elem_of_staleIds.
    + intros g' d' Hin Heq. pose proof Hin as [-> _]%Hdeleted.
      unfold cacheKey in Heq.
      apply append_inj_l, (append_inj_l ":") in Heq. by subst d'.
Qed.

(** X6.  [initialSync] keeps the keys of the cache well formed: if they are
    before, and every upsert that the sink confirmed during the run is for a
    guild and a member identifier without [":"], they are afterwards,
    however the run ends. *)
Theorem initialSync_keeps_cache_wf fuel (guildIds : list string) w :
  cache_wf (rolesCache w) →
  (∀ g d r,
     (g, d, r) ∈
       upsertsConfirmed (since w (world_of (initialSync fuel guildIds w))) →
     colon_free g = true ∧ colon_free d = true) →
  cache_wf (rolesCache (world_of (initialSync fuel guildIds w))).
Proof.
  intros Hwf.
  destruct (WriteThrough_initialSync fuel guildIds w)
    as (evs & Htrace & _ & ->).
  rewrite (since_app _ _ _ Htrace). by apply cache_wf_applyConfirmed.
Qed.

End Convergence.
(** ** These properties at concrete inputs *)

Lemma initialSync_rejected_witness :
  let w := mockWorld ∅ [inr [member "4" ["r"]]; inl "boom"] ["4"] in
  ∃ w',
    initialSync 1 ["g0"; "g1"] w = Rejected "boom" w' ∧
    ∃ tr g c e,
      g ∈ ["g0"; "g1"] ∧
      trace w' = tr ++ [RestGet g (pageQuery c)] ∧
      rest_get e g (pageQuery c) = (env w', inl "boom").
Proof.
  intros w.
  assert (initialSync 1 ["g0"; "g1"] w =
          Rejected "boom" (world_of (initialSync 1 ["g0"; "g1"] w)))
    as Hrun by (vm_compute; reflexivity).
  eexists. split; [exact Hrun|].
  exact (initialSync_rejected_only_by_fetch _ _ _ _ _ Hrun).
Defined.

Lemma synced_guild_pass_witness :
  let ms := [member "1" ["r"; "r"]; member "2" []; member "3" ["r"]] in
  let w := mockWorld (seedCache rows123) [inr ms] ["1"; "2"; "3"] in
  cache_wf (rolesCache w) ∧
  inSync (rolesCache w) "g" ms ∧
  noDeparted (rolesCache w) "g" ms ∧
  ∃ w1,
    fetchAllGuildMembers 0 "g"
      (world_of (emit (ConsoleLog (SyncingGuild "g")) w)) = Fulfilled ms w1 ∧
    syncGuild 0 "g" w =
    Fulfilled tt
      {| rolesCache := rolesCache w; env := env w1;
         trace := trace w1 ++ [ConsoleLog (FoundMembers (length ms) "g")] |}.
Proof.
  intros ms w.
  assert (cache_wf (rolesCache w)) as Hwf.
  { apply seedCache_wf. by repeat constructor. }
  assert (inSync (rolesCache w) "g" ms) as Hsync.
  { intros m d Hm Hd _.
    repeat (apply elem_of_cons in Hm as [->|Hm]);
      [..|by apply elem_of_nil in Hm];
      injection Hd as <-; eexists; (split; [vm_compute; reflexivity|]);
      intros role; cbn [roles member]; rewrite ?elem_of_cons; clear; tauto. }
  assert (noDeparted (rolesCache w) "g" ms) as Hnone.
  { intros d (row & Hrow & Heq & _)%seedCache_lookup.
    repeat (apply elem_of_cons in Hrow as [->|Hrow]);
      [..|by apply elem_of_nil in Hrow];
      apply (append_inj_l "g"), (append_inj_l ":") in Heq; subst d;
      apply (bool_decide_unpack _); vm_compute; exact I. }
  split_and!; [done..|].
  assert (∃ w1,
            fetchAllGuildMembers 0 "g"
              (world_of (emit (ConsoleLog (SyncingGuild "g")) w))
            = Fulfilled ms w1) as [w1 Hfetch]
    by (eexists; vm_compute; reflexivity).
  exists w1. split; [exact Hfetch|].
  revert Hwf Hsync Hnone Hfetch. generalize w ms. clear.
  intros w ms Hwf Hsync Hnone Hfetch.
  by apply (synced_guild_pass_is_silent 0 "g" w ms w1).
Defined.

Lemma confirmed_pass_witness :
  let ms := [member "1" ["new"]; member "4" ["r"];
             {| user := None; roles := [] |}] in
  let w := mockWorld (seedCache rows123) [inr ms] [] in
  let fetched :=
    fetchAllGuildMembers 0 "g"
      (world_of (emit (ConsoleLog (SyncingGuild "g")) w)) in
  fetched = Fulfilled ms (world_of fetched) ∧
  cache_wf (rolesCache w) ∧
  NoDup (memberIds ms) ∧
  upsertsRefused (since w (world_of (syncGuild 0 "g" w))) = [] ∧
  deletesRefused (since w (world_of (syncGuild 0 "g" w))) = [] ∧
  ∃ w3,
    syncGuild 0 "g" w = Fulfilled tt w3 ∧
    cache_wf (rolesCache w3) ∧
    inSync (rolesCache w3) "g" ms ∧
    noDeparted (rolesCache w3) "g" ms.
Proof.
  intros ms w fetched.
  assert (fetched = Fulfilled ms (world_of fetched)) as Hfetch
    by (vm_compute; reflexivity).
  assert (cache_wf (rolesCache w)) as Hwf.
  { apply seedCache_wf. by repeat constructor. }
  assert (NoDup (memberIds ms)) as Hnodup.
  { apply (bool_decide_unpack _). vm_compute. exact I. }
  assert (upsertsRefused (since w (world_of (syncGuild 0 "g" w))) = [])
    as Hup by (vm_compute; reflexivity).
  assert (deletesRefused (since w (world_of (syncGuild 0 "g" w))) = [])
    as Hdel by (vm_compute; reflexivity).
  split_and!; [assumption..|].
  apply (confirmed_pass_brings_guild_in_sync 0 "g" w ms _ Hfetch Hwf);
    [reflexivity| |assumption..].
  intros d Hd. vm_compute in Hd.
  repeat (apply elem_of_cons in Hd as [->|Hd]);
    [reflexivity..|exact (False_rect _ (proj1 (elem_of_nil d) Hd))].
Defined.

Lemma initialSync_keeps_cache_wf_witness :
  let w := mockWorld (seedCache rows123)
             [inr [member "1" ["new"]; member "4" ["r"]]] ["1"] in
  cache_wf (rolesCache w) ∧
  upsertsConfirmed (since w (world_of (initialSync 0 ["g"] w))) =
    [("g", "4", ["r"])] ∧
  cache_wf (rolesCache (world_of (initialSync 0 ["g"] w))).
Proof.
  intros w.
  assert (cache_wf (rolesCache w)) as Hwf.
  { apply seedCache_wf. by repeat constructor. }
  assert (upsertsConfirmed (since w (world_of (initialSync 0 ["g"] w))) =
          [("g", "4", ["r"])]) as Hup by (vm_compute; reflexivity).
  split_and!; [assumption..|].
  apply (initialSync_keeps_cache_wf 0 ["g"] w Hwf).
  intros g d r Hin. rewrite Hup in Hin.
  apply list_elem_of_singleton in Hin. injection Hin as -> -> ->.
  split; reflexivity.
Defined.

(** ** Cache keys, both ways *)

Lemma cacheKey_nil (d : string) : cacheKey "" d = String ":" d.
Proof. reflexivity. Qed.

Lemma cacheKey_cons (c : ascii) (g d : string) :
  cacheKey (String c g) d = String c (cacheKey g d).
Proof. reflexivity. Qed.

Lemma cacheKey_inj_guild (g d g' d' : string) :
  colon_free g = true → colon_free g' = true →
  cacheKey g d = cacheKey g' d' → g = g' ∧ d = d'.
Proof.
  revert g'. induction g as [|c g IH]; intros [|c' g'] Hg Hg';
    rewrite ?cacheKey_nil, ?cacheKey_cons; intros Heq.
  - by injection Heq as ->.
  - apply colon_free_cons in Hg' as [Hc' _]. injection Heq as Hc _.
    by destruct Hc'.
  - apply colon_free_cons in Hg as [Hc _]. injection Heq as Hc' _.
    by destruct Hc.
  - apply colon_free_cons in Hg as [_ Hg].
    apply colon_free_cons in Hg' as [_ Hg'].
    injection Heq as -> Heq. by destruct (IH g' Hg Hg' Heq) as [-> ->].
Qed.

(** X7.  Two pairs of a guild without [":"] and a member get the same cache
    key only when they are the same pair, whatever the member identifiers
    contain.  A guild identifier with [":"] breaks this: "a:b" with "c" and
    "a" with "b:c" share a key. *)
Theorem cacheKey_injective (g d g' d' : string) :
  (colon_free g = true → colon_free g' = true →
   cacheKey g d = cacheKey g' d' → g = g' ∧ d = d') ∧
  cacheKey "a:b" "c" = cacheKey "a" "b:c".
Proof. split; [apply cacheKey_inj_guild|reflexivity]. Qed.

Lemma cacheKey_injective_witness :
  colon_free "123" = true ∧ colon_free "456" = true ∧
  (cacheKey "123" "7:8" = cacheKey "456" "7:8" → "123" = "456").
Proof.
  split; [reflexivity|]. split; [reflexivity|]. intros Heq.
  by apply (proj1 (cacheKey_injective "123" "7:8" "456" "7:8")).
Defined.

Lemma split_head_colon_free (s f : string) (fs : list string) :
  split colon s = f :: fs → colon_free f = true.
Proof.
  revert f fs. induction s as [|c s IH]; intros f fs.
  - by intros [= <- <-].
  - cbn [split]. destruct (Ascii.eqb c colon) eqn:Hc.
    + by intros [= <- <-].
    + destruct (split colon s) as [|f' fs'] eqn:Hs.
      * intros [= <- <-]. cbn [colon_free]. by rewrite Hc.
      * intros [= <- <-]. cbn [colon_free]. rewrite Hc. simpl.
        by eapply IH.
Qed.

(** X8.  Reading the member back from a key, [key.split(':')[1]], gives the
    member identifier up to its first [":"]; for a guild without [":"] it
    gives back the identifier the key was built from exactly when that
    identifier has no [":"]. *)
Theorem keyDiscordId_inverts_cacheKey (g d : string) :
  colon_free g = true →
  keyDiscordId (cacheKey g d) = head (split colon d) ∧
  (keyDiscordId (cacheKey g d) = Some d ↔ colon_free d = true).
Proof.
  intros Hg. unfold keyDiscordId. rewrite (split_cacheKey _ _ Hg).
  assert (∀ l : list string, (g :: l) !! 1 = head l) as -> by by intros [].
  split; [done|]. split.
  - destruct (split colon d) as [|f fs] eqn:Hsplit; [done|].
    intros [= ->]. by eapply split_head_colon_free.
  - intros Hd. by rewrite (split_colon_free _ Hd).
Qed.

Lemma keyDiscordId_inverts_witness :
  colon_free "123" = true ∧
  keyDiscordId (cacheKey "123" "456") = Some "456" ∧
  keyDiscordId (cacheKey "123" "45:6") = Some "45".
Proof.
  split; [reflexivity|].
  destruct (keyDiscordId_inverts_cacheKey "123" "456" eq_refl) as [_ Hiff].
  destruct (keyDiscordId_inverts_cacheKey "123" "45:6" eq_refl) as [Hhead _].
  split; [by apply Hiff|exact Hhead].
Defined.

(** ** What the seeded cache holds *)

Lemma seedRow_lookup (cache : JsMap) (row : UserRoleRow)
    (g d : string) :
  colon_free g = true → colon_free (guild_snowflake row) = true →
  seedRow cache row !! cacheKey g d =
  if loads g d row then Some (default [] (discord_role row))
  else cache !! cacheKey g d.
Proof.
  intros Hg Hrow. unfold seedRow, loads.
  destruct (truthy (guild_snowflake row) && truthy (discord_id row));
    [|done]. cbn [andb].
  destruct (String.eqb (guild_snowflake row) g) eqn:Hge; cbn [andb].
  - apply String.eqb_eq in Hge as <-.
    destruct (String.eqb (discord_id row) d) eqn:Hde.
    + apply String.eqb_eq in Hde as <-. apply get_set_eq.
    + apply String.eqb_neq in Hde. apply get_set_ne.
      intros [_ ?]%cacheKey_inj_guild; done.
  - apply String.eqb_neq in Hge. apply get_set_ne.
    intros [? _]%cacheKey_inj_guild; done.
Qed.

Lemma foldl_seedRow_lookup (rows : list UserRoleRow)
    (cache : JsMap) (g d : string) :
  colon_free g = true →
  Forall (λ row, colon_free (guild_snowflake row) = true) rows →
  foldl seedRow cache rows !! cacheKey g d =
  match last (List.filter (loads g d) rows) with
  | Some row => Some (default [] (discord_role row))
  | None => cache !! cacheKey g d
  end.
Proof.
  intros Hg. revert cache.
  induction rows as [|row rows IH]; intros cache Hrows; [done|].
  apply Forall_cons in Hrows as [Hrow Hrows].
  cbn [foldl List.filter]. rewrite (IH _ Hrows), (seedRow_lookup _ _ _ _ Hg Hrow).
  destruct (loads g d row); [|done]. rewrite last_cons.
  by destruct (last (List.filter (loads g d) rows)).
Qed.

(** X9.  The seeded cache holds, for a guild (without [":"]) and a member,
    the roles of the last row with that guild and member among the rows with
    a non-empty guild and member, with [null] roles read as no roles; it
    holds nothing for the pair when there is no such row. *)
Theorem seedCache_last_row_wins (rows : list UserRoleRow) (g d : string) :
  colon_free g = true →
  Forall (λ row, colon_free (guild_snowflake row) = true) rows →
  seedCache rows !! cacheKey g d =
  (λ row, default [] (discord_role row)) <$>
    last (List.filter (loads g d) rows).
Proof.
  intros Hg Hrows. unfold seedCache.
  rewrite (foldl_seedRow_lookup _ _ _ _ Hg Hrows), get_empty.
  by destruct (last _).
Qed.

Lemma seedCache_last_row_witness :
  let rows := [row "g" "1" ["old"];
               {| guild_snowflake := "g"; discord_id := "";
                  discord_role := Some ["x"] |};
               {| guild_snowflake := "g"; discord_id := "1";
                  discord_role := None |};
               row "h" "1" ["other"]] in
  colon_free "g" = true ∧
  Forall (λ row, colon_free (guild_snowflake row) = true) rows ∧
  seedCache rows !! cacheKey "g" "1" = Some [] ∧
  seedCache rows !! cacheKey "g" "" = None.
Proof.
  intros rows.
  assert (Forall (λ row, colon_free (guild_snowflake row) = true) rows)
    as Hrows by (by repeat constructor).
  split; [reflexivity|]. split; [exact Hrows|]. split.
  - by rewrite (seedCache_last_row_wins rows "g" "1" eq_refl Hrows).
  - by rewrite (seedCache_last_row_wins rows "g" "" eq_refl Hrows).
Defined.

Section Restart.
Context {E : Type} `{Collaborators E}.

(** X10.  After a start from rows whose guild identifiers hold no [":"],
    syncing a member of a guild whose identifier holds no [":"], with
    observed roles that are, as a set, those of its last stored row, does
    nothing: no upsert is sent and the state is unchanged.  (Without the
    condition two rows can share a key, see [cacheKey_injective].) *)
Theorem seeded_member_sync_is_silent (w : @World E) (rows : list UserRoleRow)
    (g d : string) (row : UserRoleRow) (observed : list string) :
  rolesCache w = seedCache rows →
  colon_free g = true →
  Forall (λ row, colon_free (guild_snowflake row) = true) rows →
  last (List.filter (loads g d) rows) = Some row →
  sameRoles (default [] (discord_role row)) observed →
  syncUserRoles g d observed w = Fulfilled tt w.
Proof.
  intros Hcache Hg Hrows Hlast Hsame. rewrite syncUserRoles_run.
  rewrite (syncUserRoles_decide_same _ g d (default [] (discord_role row)));
    [done| |done].
  unfold seedCache in Hcache.
  by rewrite Hcache, (foldl_seedRow_lookup _ _ _ _ Hg Hrows), Hlast.
Qed.

End Restart.

Lemma seeded_member_sync_witness :
  let w := mockWorld (seedCache rows123) [] ["1"] in
  rolesCache w = seedCache rows123 ∧
  last (List.filter (loads "g" "1") rows123) = Some (row "g" "1" ["r"]) ∧
  sameRoles ["r"] ["r"; "r"] ∧
  syncUserRoles "g" "1" ["r"; "r"] w = Fulfilled tt w.
Proof.
  intros w.
  assert (sameRoles ["r"] ["r"; "r"]) as Hsame.
  { intros role. rewrite !elem_of_cons. clear. tauto. }
  split; [reflexivity|]. split; [reflexivity|]. split; [exact Hsame|].
  apply (seeded_member_sync_is_silent w rows123 "g" "1" (row "g" "1" ["r"]));
    [reflexivity|reflexivity| |reflexivity|exact Hsame].
  by repeat constructor.
Defined.

(** ** Configuration *)

Lemma all_chars_impl (P Q : ascii → bool) (s : string) :
  (∀ c, P c = true → Q c = true) →
  all_chars P s = true → all_chars Q s = true.
Proof.
  intros HPQ. induction s as [|c s IH]; [done|]. cbn [all_chars].
  rewrite !andb_true_iff. intros [Hc Hs]. split; [by apply HPQ|by apply IH].
Qed.

(** The fields of a split hold the characters of the string, the separator
    apart. *)
Lemma split_all_chars (P : ascii → bool) (sep : ascii) (s : string) :
  all_chars P s = true →
  Forall (λ f, all_chars (λ c, P c && negb (Ascii.eqb c sep)) f = true)
    (split sep s).
Proof.
  induction s as [|c s IH]; [by repeat constructor|].
  cbn [all_chars split]. rewrite andb_true_iff. intros [Hc Hs].
  specialize (IH Hs). destruct (Ascii.eqb c sep) eqn:Hsep.
  - by constructor.
  - destruct (split sep s) as [|f fs].
    { constructor; [|constructor]. cbn [all_chars]. by rewrite Hc, Hsep. }
    apply Forall_cons in IH as [Hf Hfs]. constructor; [|done].
    cbn [all_chars]. by rewrite Hc, Hsep, Hf.
Qed.

Lemma split_lacks (sep : ascii) (s : string) :
  lacks sep s = true → split sep s = [s].
Proof.
  unfold lacks. induction s as [|c s IH]; [done|]. cbn [all_chars split].
  rewrite andb_true_iff, negb_true_iff. intros [-> Hs]. by rewrite (IH Hs).
Qed.

Lemma split_app_sep (sep : ascii) (x rest : string) :
  lacks sep x = true →
  split sep (x +:+ String sep rest) = x :: split sep rest.
Proof.
  unfold lacks. induction x as [|c x IH].
  - intros _. change (split sep (String sep rest) = "" :: split sep rest).
    cbn [split]. by rewrite Ascii.eqb_refl.
  - cbn [all_chars]. rewrite andb_true_iff, negb_true_iff. intros [Hc Hx].
    rewrite append_cons. cbn [split]. by rewrite Hc, (IH Hx).
Qed.

Lemma split_join (sep : ascii) (fields : list string) :
  fields ≠ [] → Forall (λ f, lacks sep f = true) fields →
  split sep (join sep fields) = fields.
Proof.
  induction fields as [|x fields IH]; [done|]. intros _ Hall.
  apply Forall_cons in Hall as [Hx Hall].
  destruct fields as [|y fields]; [by apply split_lacks|].
  change (join sep (x :: y :: fields))
    with (x +:+ String sep (join sep (y :: fields))).
  rewrite (split_app_sep _ _ _ Hx). f_equal. by apply IH.
Qed.

Lemma trimStart_all_chars (P : ascii → bool) (s : string) :
  all_chars P s = true → all_chars P (trimStart s) = true.
Proof.
  induction s as [|c s IH]; [done|]. cbn [trimStart].
  destruct (is_whitespace c); [|done]. cbn [all_chars].
  rewrite andb_true_iff. intros [_ Hs]. by apply IH.
Qed.

Lemma trimEnd_all_chars (P : ascii → bool) (s : string) :
  all_chars P s = true → all_chars P (trimEnd s) = true.
Proof.
  induction s as [|c s IH]; [done|]. cbn [all_chars trimEnd].
  rewrite andb_true_iff. intros [Hc Hs]. specialize (IH Hs).
  destruct (trimEnd s) as [|c' t].
  - destruct (is_whitespace c); [done|]. cbn [all_chars]. by rewrite Hc.
  - cbn [all_chars] in *. by rewrite Hc, IH.
Qed.

Lemma trimStart_whitespace (s : string) :
  all_chars is_whitespace s = true → trimStart s = "".
Proof.
  induction s as [|c s IH]; [done|]. cbn [all_chars trimStart].
  rewrite andb_true_iff. intros [-> Hs]. by apply IH.
Qed.

Lemma trimEnd_cons (c : ascii) (s : string) :
  trimEnd (String c s) =
  match trimEnd s with
  | EmptyString => if is_whitespace c then EmptyString
                   else String c EmptyString
  | t => String c t
  end.
Proof. reflexivity. Qed.

Lemma trimEnd_idem (s : string) : trimEnd (trimEnd s) = trimEnd s.
Proof.
  induction s as [|c s IH]; [done|]. rewrite (trimEnd_cons c s).
  destruct (trimEnd s) as [|c' t] eqn:Ht.
  - destruct (is_whitespace c) eqn:Hc; [done|].
    rewrite trimEnd_cons. cbn [trimEnd]. by rewrite Hc.
  - rewrite (trimEnd_cons c (String c' t)), IH. reflexivity.
Qed.

(** The string is empty or starts with a character that is no white space. *)
Lemma trimStart_fixed (s : string) :
  match s with
  | EmptyString => True
  | String c _ => is_whitespace c = false
  end → trimStart s = s.
Proof. destruct s as [|c s]; [done|]. cbn [trimStart]. by intros ->. Qed.

Lemma trimEnd_trimStart_fixed (s : string) :
  trimStart (trimEnd (trimStart s)) = trimEnd (trimStart s).
Proof.
  apply trimStart_fixed.
  induction s as [|c s IH]; [done|]. cbn [trimStart].
  destruct (is_whitespace c) eqn:Hc; [done|]. cbn [trimEnd].
  destruct (trimEnd s); [by rewrite Hc|done].
Qed.

Lemma trim_idem (s : string) : trim (trim s) = trim s.
Proof. unfold trim. by rewrite trimEnd_trimStart_fixed, trimEnd_idem. Qed.

Lemma elem_of_parseGuildIds (value : option string) (id : string) :
  id ∈ parseGuildIds value → clean_id id.
Proof.
  destruct value as [s|]; [|by intros ?%elem_of_nil]. unfold parseGuildIds.
  intros [(f & <- & Hf)%elem_of_List_map Htruthy]%elem_of_List_filter.
  split; [done|]. split; [|apply trim_idem].
  pose proof (split_all_chars (λ _, true) comma s) as Hfields.
  rewrite Forall_forall in Hfields. unfold lacks, trim.
  apply trimEnd_all_chars, trimStart_all_chars.
  eapply all_chars_impl; [|apply Hfields; [|done]].
  - by intros c.
  - clear. by induction s as [|c s IH].
Qed.

(** X11.  Every configured guild identifier is clean: it is not empty, holds
    no comma, and has no white space at either end, whatever the value of
    [GUILD_SNOWFLAKES]. *)
Theorem parseGuildIds_clean (value : option string) :
  Forall clean_id (parseGuildIds value).
Proof. apply Forall_forall. intros id. apply elem_of_parseGuildIds. Qed.

(** X12.  Parsing a comma-separated list gives its fields trimmed, the ones
    that are empty after trimming dropped, in order.  So identifiers written
    with a comma between them are read back as they are, and white space
    around them or empty fields between them do no harm. *)
Theorem parseGuildIds_join (fields : list string) :
  Forall (λ f, lacks comma f = true) fields →
  parseGuildIds (Some (join comma fields)) =
  List.filter truthy (map trim fields).
Proof.
  intros Hfields. unfold parseGuildIds.
  destruct fields as [|f fields]; [done|]. by rewrite split_join.
Qed.

Lemma parseGuildIds_join_witness :
  let fields := ["123456789"; " 987654321 "; ""; "  "] in
  Forall (λ f, lacks comma f = true) fields ∧
  join comma fields = "123456789, 987654321 ,,  " ∧
  parseGuildIds (Some "123456789, 987654321 ,,  ") =
    ["123456789"; "987654321"].
Proof.
  intros fields.
  assert (Forall (λ f, lacks comma f = true) fields) as Hfields
    by (by repeat constructor).
  split; [exact Hfields|]. split; [reflexivity|].
  exact (parseGuildIds_join fields Hfields).
Defined.

Lemma parseGuildIds_blank (s : string) :
  all_chars (λ c, Ascii.eqb c comma || is_whitespace c) s = true →
  parseGuildIds (Some s) = [].
Proof.
  intros Hblank. unfold parseGuildIds.
  pose proof (split_all_chars _ comma s Hblank) as Hfields.
  induction Hfields as [|f fs Hf _ IH]; [done|]. cbn [map List.filter].
  rewrite IH. unfold trim. rewrite trimStart_whitespace; [done|].
  eapply all_chars_impl; [|exact Hf]. intros c. cbv beta.
  rewrite andb_true_iff, negb_true_iff. intros [Hc Hsep].
  by rewrite Hsep in Hc.
Qed.

(** X13.  With the three secrets set, a [GUILD_SNOWFLAKES] that is unset,
    empty, or made only of commas and white space configures no guild, and
    the start stops with the error about [GUILD_SNOWFLAKES]. *)
Theorem loadConfig_without_guilds (vars : DenoEnv) :
  truthy_opt (DISCORD_TOKEN vars) = true →
  truthy_opt (SUPABASE_URL vars) = true →
  truthy_opt (SUPABASE_KEY vars) = true →
  match GUILD_SNOWFLAKES vars with
  | Some s => all_chars (λ c, Ascii.eqb c comma || is_whitespace c) s = true
  | None => True
  end →
  loadConfig vars =
  inl "Missing GUILD_SNOWFLAKES env variable (comma-separated guild IDs)".
Proof.
  intros Htoken Hurl Hkey Hblank. unfold loadConfig. cbv zeta.
  cbn [discordToken supabaseUrl supabaseKey guildIds].
  rewrite Htoken, Hurl, Hkey. cbn [negb orb].
  destruct (GUILD_SNOWFLAKES vars) as [s|]; [|done].
  by rewrite (parseGuildIds_blank s Hblank).
Qed.

Lemma loadConfig_without_guilds_witness :
  let vars := {| SUPABASE_URL := Some "https://abc.supabase.co";
                 SUPABASE_KEY := Some "key";
                 GUILD_SNOWFLAKES := Some " , ,, ";
                 DISCORD_TOKEN := Some "token" |} in
  all_chars (λ c, Ascii.eqb c comma || is_whitespace c) " , ,, " = true ∧
  loadConfig vars =
  inl "Missing GUILD_SNOWFLAKES env variable (comma-separated guild IDs)".
Proof.
  intros vars. split; [reflexivity|].
  by apply (loadConfig_without_guilds vars).
Defined.

(** X14.  When the configuration is accepted, the three secrets are set and
    not empty, there is at least one guild, and every guild identifier is
    clean. *)
Theorem loadConfig_accepted (vars : DenoEnv) (config : Config) :
  loadConfig vars = inr config →
  truthy_opt (discordToken config) = true ∧
  truthy_opt (supabaseUrl config) = true ∧
  truthy_opt (supabaseKey config) = true ∧
  guildIds config ≠ [] ∧
  Forall clean_id (guildIds config) ∧
  guildIds config = parseGuildIds (GUILD_SNOWFLAKES vars).
Proof.
  unfold loadConfig. cbv zeta.
  cbn [discordToken supabaseUrl supabaseKey guildIds].
  destruct (truthy_opt (DISCORD_TOKEN vars)) eqn:Htoken; [|done].
  destruct (truthy_opt (SUPABASE_URL vars)) eqn:Hurl; [|done].
  destruct (truthy_opt (SUPABASE_KEY vars)) eqn:Hkey; [|done].
  cbn [negb orb].
  assert (Forall clean_id (parseGuildIds (GUILD_SNOWFLAKES vars))) as Hclean
    by (apply Forall_forall; intros x; apply elem_of_parseGuildIds).
  destruct (parseGuildIds (GUILD_SNOWFLAKES vars)) as [|id ids]; [done|].
  cbn [length Nat.eqb]. intros [= <-].
  cbn [discordToken supabaseUrl supabaseKey guildIds].
  by split_and!.
Qed.

Lemma loadConfig_accepted_witness :
  let vars := {| SUPABASE_URL := Some "https://abc.supabase.co";
                 SUPABASE_KEY := Some "key";
                 GUILD_SNOWFLAKES := Some "123456789,987654321";
                 DISCORD_TOKEN := Some "token" |} in
  ∃ config,
    loadConfig vars = inr config ∧
    guildIds config = ["123456789"; "987654321"] ∧
    Forall clean_id (guildIds config).
Proof.
  intros vars. eexists. split; [reflexivity|]. split; [reflexivity|].
  by eapply (loadConfig_accepted vars).
Defined.

(** ** The gateway handler *)

Section Handling.
Context {E : Type} `{Collaborators E}.
Implicit Types (w : @World E) (g d : string) (r : list string).

Lemma since_Emits {A} (P : Event → Prop) (m : @M E A) w :
  Emits P m → Forall P (since w (world_of (m w))).
Proof.
  intros Hm. destruct (Hm w) as (evs & Htrace & Hevs). unfold since.
  by rewrite Htrace, drop_app_length.
Qed.

Lemma within_guilds_concerns (guildIds : list string) (ev : Event) :
  within_guilds guildIds ev → concerns guildIds ev.
Proof. destruct ev; cbn [within_guilds concerns]; tauto. Qed.

Lemma Emits_initialSync fuel (guildIds : list string) :
  Emits (within_guilds guildIds) (initialSync fuel guildIds).
Proof. apply Emits_forEach. intros g Hg. by apply Emits_syncGuild. Qed.

Lemma Emits_syncUserRoles_concerns (guildIds : list string) g d r :
  g ∈ guildIds → Emits (concerns guildIds) (syncUserRoles g d r).
Proof.
  intros Hg w. rewrite syncUserRoles_run.
  destruct (syncUserRoles_decide (rolesCache w) g d r).
  - rewrite upsertUserRoles_run. cbn [world_of].
    destruct (sink_upsert (env w) g d r) as [e [message|]];
      eexists; (split; [reflexivity|]); repeat constructor; try exact Hg.
    by exists g, d.
  - exists []. by rewrite app_nil_r.
Qed.

Lemma Emits_removeUserRoles_concerns (guildIds : list string) g d :
  g ∈ guildIds → Emits (concerns guildIds) (removeUserRoles g d).
Proof.
  intros Hg. eapply Emits_weaken; [|apply Emits_removeUserRoles].
  intros ev Hev. by apply within_guilds_concerns, (prune_event_within _ g).
Qed.

Lemma syncUserRoles_fulfilled g d r w :
  ∃ w', syncUserRoles g d r w = Fulfilled tt w'.
Proof.
  rewrite syncUserRoles_run.
  destruct (syncUserRoles_decide _ _ _ _); [|by eexists].
  rewrite upsertUserRoles_run. by eexists.
Qed.

Lemma onDispatch_concerns fuel (guildIds : list string) (event : Dispatch) w :
  Forall (process_concerns guildIds) (fst (onDispatch fuel guildIds event w)).
Proof.
  destruct event as [|g d r|g d|]; cbn [onDispatch engine fst].
  - unfold engine. cbn [fst]. constructor; [exact I|]. apply Forall_app. split.
    + apply Forall_fmap. eapply Forall_impl.
      * apply since_Emits, Emits_initialSync.
      * intros ev. apply within_guilds_concerns.
    + destruct (is_fulfilled _); repeat constructor.
  - case_bool_decide as Hg; [|constructor]. unfold engine. cbn [fst].
    apply Forall_fmap. by apply since_Emits, Emits_syncUserRoles_concerns.
  - case_bool_decide as Hg; [|constructor]. unfold engine. cbn [fst].
    apply Forall_fmap. by apply since_Emits, Emits_removeUserRoles_concerns.
  - constructor.
Qed.

(** A member event acts on its own guild alone. *)
Lemma onDispatch_member_concerns fuel (guildIds : list string)
    (event : Dispatch) w g d r :
  event = GuildMemberUpdate g d r ∨ event = GuildMemberRemove g d →
  Forall (process_concerns [g]) (fst (onDispatch fuel guildIds event w)).
Proof.
  intros [-> | ->]; cbn [onDispatch]; (case_bool_decide; [|constructor]);
    unfold engine; cbn [fst]; apply Forall_fmap, since_Emits.
  - apply Emits_syncUserRoles_concerns. by left.
  - apply Emits_removeUserRoles_concerns. by left.
Qed.

(** X15.  Whatever is dispatched and whatever the collaborators answer, the
    handler only acts on the configured guilds: every request, upsert, delete
    and cache mutation names a guild of [guildIds], and the rows are never
    selected.  A member event ([GuildMemberUpdate], [GuildMemberRemove]) acts
    on its own guild alone, and when that guild is not configured the handler
    does nothing at all: no effect, the state as it was. *)
Theorem onDispatch_concerns_configured_guilds fuel (guildIds : list string)
    (event : Dispatch) w :
  Forall (process_concerns guildIds) (fst (onDispatch fuel guildIds event w)) ∧
  (∀ g d r,
     event = GuildMemberUpdate g d r ∨ event = GuildMemberRemove g d →
     Forall (process_concerns [g]) (fst (onDispatch fuel guildIds event w)) ∧
     (g ∉ guildIds →
      onDispatch fuel guildIds event w = ([], Fulfilled tt w))).
Proof.
  split; [apply onDispatch_concerns|]. intros g d r Hevent.
  split; [by apply (onDispatch_member_concerns _ _ _ _ g d r)|].
  intros Hg. destruct Hevent as [-> | ->]; cbn [onDispatch];
    by rewrite bool_decide_eq_false_2.
Qed.

(** X16.  A member event is always handled to the end: whatever the sink
    answers, the handler is fulfilled, it logs neither of the lines of
    [Ready], and it does not end the process. *)
Theorem member_event_never_fails fuel (guildIds : list string)
    (event : Dispatch) w :
  event ≠ Ready →
  (∃ w', snd (onDispatch fuel guildIds event w) = Fulfilled tt w') ∧
  Forall (λ pe, is_effect pe = true) (fst (onDispatch fuel guildIds event w)).
Proof.
  intros Hevent. destruct event as [|g d r|g d|]; [done|..];
    cbn [onDispatch].
  - case_bool_decide; [|split; [by eexists|constructor]].
    unfold engine. cbn [fst snd]. split; [apply syncUserRoles_fulfilled|].
    apply Forall_fmap, Forall_forall. by intros ev _.
  - case_bool_decide; [|split; [by eexists|constructor]].
    unfold engine. cbn [fst snd]. split.
    + rewrite removeUserRoles_run. by eexists.
    + apply Forall_fmap, Forall_forall. by intros ev _.
  - split; [by eexists|constructor].
Qed.

Lemma initialSync_not_rejected fuel (guildIds : list string) w reason w' :
  (∀ e g q, ∃ e' page, rest_get e g q = (e', inr page)) →
  initialSync fuel guildIds w ≠ Rejected reason w'.
Proof.
  intros Hrest. unfold initialSync. revert w.
  induction guildIds as [|g guildIds IH]; intros w; [done|].
  cbn [forEach]. unfold bind.
  destruct (syncGuild fuel g w) as [[] w1|reason1 w1|w1] eqn:Hguild;
    [apply IH| |done].
  apply syncGuild_rejected, fetchAllGuildMembers_rejected in Hguild
    as (tr & c & e & _ & Hget).
  destruct (Hrest e g (pageQuery c)) as (e' & page & Hpage). congruence.
Qed.

(** X17.  When no page request fails and the pagination ends, [Ready] runs
    to the end whatever the sink answers: [initialSync] is fulfilled, and
    the process logs the start with the number of guilds, does what
    [initialSync] did (its events, in its final state), logs the completion,
    and exits with code 0.  The exit code does not tell whether the sink took
    the rows. *)
Theorem Ready_exits_zero fuel (guildIds : list string) w :
  (∀ e g q, ∃ e' page, rest_get e g q = (e', inr page)) →
  settles (initialSync fuel guildIds w) →
  ∃ w',
    initialSync fuel guildIds w = Fulfilled tt w' ∧
    onDispatch fuel guildIds Ready w =
    (StartingSync (length guildIds) :: (Effect <$> since w w') ++
       [SyncComplete; Exit 0],
     Fulfilled tt w') ∧
    trace w' = trace w ++ since w w'.
Proof.
  intros Hrest Hsettles. cbn [onDispatch]. unfold engine.
  pose proof (initialSync_not_rejected fuel guildIds w) as Hnot.
  destruct (Emits_initialSync fuel guildIds w) as (evs & Htrace & _).
  destruct (initialSync fuel guildIds w) as [[] w1|reason1 w1|w1];
    [|by destruct (Hnot reason1 w1)|done].
  cbn [world_of is_fulfilled] in *. exists w1. split; [done|].
  split; [done|]. unfold since. by rewrite Htrace, drop_app_length.
Qed.

(** A run of [initialSync] that is rejected has emitted something. *)
Lemma initialSync_rejected_grows fuel (guildIds : list string) w reason w' :
  initialSync fuel guildIds w = Rejected reason w' →
  length (trace w) < length (trace w').
Proof.
  unfold initialSync. revert w.
  induction guildIds as [|g guildIds IH]; intros w; [done|].
  cbn [forEach]. unfold bind.
  destruct (syncGuild fuel g w) as [[] w1|reason1 w1|w1] eqn:Hguild;
    [|intros [= <- <-]|done].
  - intros Hrest%IH.
    destruct (Emits_syncGuild fuel [g] g (list_elem_of_here g []) w)
      as (evs & Htrace & _).
    rewrite Hguild in Htrace. cbn [world_of] in Htrace.
    rewrite Htrace, length_app in Hrest. lia.
  - apply syncGuild_rejected in Hguild.
    destruct (Emits_fetchAllGuildMembers fuel g
                (world_of (emit (ConsoleLog (SyncingGuild g)) w)))
      as (evs & Htrace & _).
    rewrite Hguild in Htrace. cbn [world_of emit trace] in Htrace.
    rewrite Htrace, !length_app. cbn [length]. lia.
Qed.

Lemma initialSync_rejected_last fuel (guildIds : list string) w reason w' :
  initialSync fuel guildIds w = Rejected reason w' →
  ∃ g c, g ∈ guildIds ∧
         trace w' = trace w ++ since w w' ∧
         last (since w w') = Some (RestGet g (pageQuery c)).
Proof.
  intros Hrun. pose proof (initialSync_rejected_grows _ _ _ _ _ Hrun) as Hlen.
  destruct (Emits_initialSync fuel guildIds w) as (evs & Htrace & _).
  rewrite Hrun in Htrace. cbn [world_of] in Htrace.
  assert (since w w' = evs) as Hsince
    by (unfold since; by rewrite Htrace, drop_app_length).
  rewrite Hsince. revert Hrun. unfold initialSync. clear Hsince.
  revert w evs Htrace Hlen.
  induction guildIds as [|g guildIds IH]; intros w evs Htrace Hlen; [done|].
  cbn [forEach]. unfold bind.
  destruct (syncGuild fuel g w) as [[] w1|reason1 w1|w1] eqn:Hguild;
    [|intros [= <- <-]|done].
  - intros Hrun.
    pose proof (initialSync_rejected_grows _ _ _ _ _ Hrun) as Hlen1.
    destruct (Emits_syncGuild fuel [g] g (list_elem_of_here g []) w)
      as (evs0 & Htrace0 & _).
    rewrite Hguild in Htrace0. cbn [world_of] in Htrace0.
    destruct (Emits_initialSync fuel guildIds w1) as (evs1 & Htrace1 & _).
    unfold initialSync in Htrace1. rewrite Hrun in Htrace1.
    cbn [world_of] in Htrace1.
    destruct (IH w1 evs1 Htrace1 Hlen1 Hrun) as (g' & c & Hg' & _ & Hlast).
    exists g', c. split; [by right|]. split; [done|].
    assert (evs = evs0 ++ evs1) as ->.
    { apply (app_inv_head (trace w)).
      by rewrite <-Htrace, Htrace1, Htrace0, app_assoc. }
    rewrite Htrace1, length_app in Hlen1.
    destruct evs1 as [|ev1 evs1] using rev_ind; [cbn [length] in Hlen1; lia|].
    rewrite app_assoc, last_snoc. by rewrite last_snoc in Hlast.
  - apply syncGuild_rejected, fetchAllGuildMembers_rejected in Hguild
      as (tr & c & e & Htr & _).
    exists g, c. split; [by left|]. split; [done|].
    rewrite Htrace, length_app in Hlen.
    destruct evs as [|ev evs _] using rev_ind; [cbn [length] in Hlen; lia|].
    rewrite last_snoc. rewrite Htrace, app_assoc in Htr.
    by apply app_inj_tail in Htr as [_ ->].
Qed.

(** X18.  When the sync started by [Ready] is rejected, the process does
    not log the completion and does not exit: the last thing it did is the
    page request of a configured guild that failed. *)
Theorem Ready_rejected_never_exits fuel (guildIds : list string) w reason w' :
  snd (onDispatch fuel guildIds Ready w) = Rejected reason w' →
  (SyncComplete ∉ fst (onDispatch fuel guildIds Ready w)) ∧
  (∀ code, Exit code ∉ fst (onDispatch fuel guildIds Ready w)) ∧
  ∃ g c, g ∈ guildIds ∧
         last (fst (onDispatch fuel guildIds Ready w)) =
         Some (Effect (RestGet g (pageQuery c))).
Proof.
  cbn [onDispatch]. unfold engine. cbn [fst snd]. intros Hrun.
  rewrite Hrun. cbn [is_fulfilled world_of]. rewrite app_nil_r.
  destruct (initialSync_rejected_last _ _ _ _ _ Hrun)
    as (g & c & Hg & _ & Hlast).
  split_and!.
  - intros [[=]|(ev & [=] & _)%list_elem_of_fmap]%elem_of_cons.
  - intros code [[=]|(ev & [=] & _)%list_elem_of_fmap]%elem_of_cons.
  - exists g, c. split; [done|].
    destruct (since w w') as [|ev evs _] using rev_ind; [done|].
    rewrite last_snoc in Hlast. injection Hlast as ->.
    rewrite fmap_app. cbn [fmap list_fmap].
    by rewrite app_comm_cons, last_snoc.
Qed.

End Handling.

Lemma member_event_never_fails_witness :
  let event := GuildMemberUpdate "g" "1" ["r"] in
  let w := mockWorld ∅ [] ["1"] in
  event ≠ Ready ∧
  (∃ w', snd (onDispatch 0 ["g"] event w) = Fulfilled tt w') ∧
  Forall (λ pe, is_effect pe = true) (fst (onDispatch 0 ["g"] event w)).
Proof.
  intros event w. split; [discriminate|].
  apply (member_event_never_fails 0 ["g"] event w). discriminate.
Defined.

Lemma onDispatch_concerns_witness :
  let event := GuildMemberUpdate "h" "1" ["r"] in
  let w := mockWorld ∅ [] [] in
  ("h" ∉ ["g"]) ∧ onDispatch 0 ["g"] event w = ([], Fulfilled tt w).
Proof.
  intros event w.
  assert ("h" ∉ ["g"]) as Hh
    by (intros [[=]|Hnil]%elem_of_cons; exact (proj1 (elem_of_nil _) Hnil)).
  split; [exact Hh|].
  exact (proj2 (proj2 (onDispatch_concerns_configured_guilds 0 ["g"] event w)
                  "h" "1" ["r"] (or_introl eq_refl)) Hh).
Defined.

Lemma Ready_exits_zero_witness :
  let w := {| rolesCache := ∅; env := refusing; trace := [] |} in
  (∀ e g q, ∃ e' page, rest_get (E:=Refusing) e g q = (e', inr page)) ∧
  settles (initialSync 0 ["g"] w) ∧
  ∃ w',
    initialSync 0 ["g"] w = Fulfilled tt w' ∧
    onDispatch 0 ["g"] Ready w =
    (StartingSync 1 :: (Effect <$> since w w') ++ [SyncComplete; Exit 0],
     Fulfilled tt w') ∧
    upsertsRefused (since w w') = [("g", "1", ["r"]); ("g", "2", [])] ∧
    rolesCache w' = ∅.
Proof.
  intros w.
  assert (∀ e g q, ∃ e' page,
            rest_get (E:=Refusing) e g q = (e', inr page)) as Hrest
    by (intros e g q; eexists _, _; reflexivity).
  assert (settles (initialSync 0 ["g"] w)) as Hsettles
    by (vm_compute; exact I).
  split; [exact Hrest|]. split; [exact Hsettles|].
  destruct (Ready_exits_zero 0 ["g"] w Hrest Hsettles)
    as (w' & Hrun & Hhandler & _).
  exists w'. split; [exact Hrun|]. split; [exact Hhandler|].
  assert (w' = world_of (initialSync 0 ["g"] w)) as ->
    by (rewrite Hrun; reflexivity).
  split; vm_compute; reflexivity.
Defined.

Lemma Ready_rejected_witness :
  let w := mockWorld ∅ [inl "503"] [] in
  ∃ w',
    snd (onDispatch 0 ["g"] Ready w) = Rejected "503" w' ∧
    (SyncComplete ∉ fst (onDispatch 0 ["g"] Ready w)) ∧
    (∀ code, Exit code ∉ fst (onDispatch 0 ["g"] Ready w)) ∧
    ∃ g c, g ∈ ["g"] ∧
           last (fst (onDispatch 0 ["g"] Ready w)) =
           Some (Effect (RestGet g (pageQuery c))).
Proof.
  intros w. eexists. split; [reflexivity|].
  eapply (Ready_rejected_never_exits 0 ["g"] w). reflexivity.
Defined.
